(** * IRGenerationContext: the coordinator of IR code generation

    A shallow embedding of [libsolidity/codegen/ir/IRGenerationContext.cpp]:
    the naming functions, the function generation queue, the table of local
    variables and the two-phase registry of internal dispatch functions.

    Conventions of the embedding.
    - A [FunctionDefinition const*] or [VariableDeclaration const*] is an
      address ([N], [0] is the null pointer).  The AST is immutable while code
      is generated: it is a pair of functions from addresses to the nodes that
      live there, shared by the whole development as Section variables.
    - [std::set<T const*>] is a [gset N]; where the code iterates over a set or
      takes [begin()], the elements are listed in the order of the container.
    - [std::map<K, V>] is a [gmap K V].
    - [solAssert] throws an internal compiler error and ends the compilation:
      an operation is a function from the state to a [result] that is either
      a value with the next state, or the failed assertion. *)

From Stdlib Require Import Ascii.
From stdpp Require Import gmap strings pretty sorting list fin_maps.

Open Scope string_scope.

(** ** AST nodes, as far as this file reads them *)

(** What [TypeProvider::function(f)->asCallableFunction(false)] is asked for:
    the stack sizes of its parameter tuple and of its return tuple. *)
Record FunctionType := {
  parameterTypes_sizeOnStack : N;
  returnParameterTypes_sizeOnStack : N;
}.

Record FunctionDefinition := {
  fd_name : string;
  fd_id : Z;
  fd_isConstructor : bool;
  (** [None] is the null pointer of [asCallableFunction]. *)
  fd_callable : option FunctionType;
}.

Record VariableDeclaration := {
  vd_name : string;
  vd_id : Z;
}.

Record Arity := {
  ar_in : N;
  ar_out : N;
}.

#[global] Instance Arity_eq_dec : EqDecision Arity.
Proof. solve_decision. Defined.

#[global] Instance Arity_countable : Countable Arity.
Proof.
  refine (inj_countable' (λ a, (ar_in a, ar_out a))
            (λ p, {| ar_in := p.1; ar_out := p.2 |}) _).
  by intros [].
Defined.

(** [IRVariable{_varDecl}]: the generation-time variable built from a
    declaration.  The class lives in another file; all this file does with it
    is to construct it from the declaration and to hand it back. *)
Record IRVariable := {
  iv_declaration : N;
}.

(** ** std::to_string and string helpers *)

Class ToString (A : Type) := to_string : A → string.

(** [std::to_string] of a signed identifier: decimal, with a sign. *)
#[global] Instance to_string_Z : ToString Z := λ z, pretty z.
(** [std::to_string] of a [size_t]. *)
#[global] Instance to_string_N : ToString N := λ n, pretty n.

Definition LF : string := String "010"%char "".
Definition TAB : string := String "009"%char "".

Fixpoint tabs (n : nat) : string :=
  match n with
  | O => ""
  | S n => TAB +:+ tabs n
  end.

(** The characters of a string. *)
Fixpoint occurs (c : ascii) (s : string) : Prop :=
  match s with
  | EmptyString => False
  | String c' s' => c = c' ∨ occurs c s'
  end.

Definition is_digit (c : ascii) : Prop :=
  (48 ≤ nat_of_ascii c ≤ 57)%nat.

(** ** std::set: iteration order *)

(** The elements of a set of pointers in the order of its comparator, given
    by the key the comparator compares. *)
Definition key_le (key : N → Z) : relation N := λ x y, (key x ≤ key y)%Z.

#[global] Instance key_le_dec key x y : Decision (key_le key x y).
Proof. unfold key_le. apply _. Defined.

#[global] Instance key_le_total key : Total (key_le key).
Proof. intros x y. unfold key_le. lia. Qed.

#[global] Instance key_le_trans key : Transitive (key_le key).
Proof. intros x y z. unfold key_le. lia. Qed.

Definition std_set_elements (key : N → Z) (s : gset N) : list N :=
  merge_sort (key_le key) (elements s).

(** The default comparator [std::less<T const*>] orders by address. *)
Definition by_address : N → Z := Z.of_N.

(** [std::map::count]. *)
Definition map_count `{Countable K} {V} (m : gmap K V) (k : K) : nat :=
  match m !! k with Some _ => 1 | None => 0 end.

(** [std::map::emplace]: the new map, the value the returned iterator points
    to, and whether the pair was inserted; nothing is overwritten. *)
Definition emplace `{Countable K} {V} (k : K) (v : V) (m : gmap K V)
    : gmap K V * V * bool :=
  match m !! k with
  | Some v' => (m, v', false)
  | None => (<[k := v]> m, v, true)
  end.

(** [std::map::try_emplace], its result dropped. *)
Definition try_emplace `{Countable K} {V} (k : K) (v : V) (m : gmap K V) : gmap K V :=
  (emplace k v m).1.1.

(** [m[k]] on a map of sets: a missing entry is created empty. *)
Definition subscript `{Countable K} (k : K) (m : gmap K (gset N)) : gmap K (gset N) :=
  try_emplace k ∅ m.

Definition at_key `{Countable K} (m : gmap K (gset N)) (k : K) : gset N :=
  default ∅ (m !! k).

(** [m[k].insert(p)]. *)
Definition subscript_insert `{Countable K} (k : K) (p : N) (m : gmap K (gset N))
    : gmap K (gset N) :=
  <[k := {[p]} ∪ at_key (subscript k m) k]> (subscript k m).

(** [m[k] = s]. *)
Definition subscript_assign `{Countable K} (k : K) (s : gset N) (m : gmap K (gset N))
    : gmap K (gset N) :=
  <[k := s]> (subscript k m).

(** ** The state and its operations *)

Record IRGenerationContext := {
  (** Modelled from the spec: the collector of finished code
      (MultiUseYulFunctionCollector) is not in this file; the spec has it as
      a registry from names to rendered fragments. *)
  m_functions : gmap string string;
  m_functionGenerationQueue : gset N;
  m_localVariables : gmap N IRVariable;
  m_internalDispatchMap : gmap Arity (gset N);
  m_internalDispatchTargetCandidates : gmap Arity (gset N);
}.

Definition emptyContext : IRGenerationContext :=
  {| m_functions := ∅; m_functionGenerationQueue := ∅; m_localVariables := ∅;
     m_internalDispatchMap := ∅; m_internalDispatchTargetCandidates := ∅ |}.

Definition set_functions (f : gmap string string → gmap string string)
    (c : IRGenerationContext) : IRGenerationContext :=
  {| m_functions := f (m_functions c);
     m_functionGenerationQueue := m_functionGenerationQueue c;
     m_localVariables := m_localVariables c;
     m_internalDispatchMap := m_internalDispatchMap c;
     m_internalDispatchTargetCandidates := m_internalDispatchTargetCandidates c |}.

Definition set_queue (f : gset N → gset N)
    (c : IRGenerationContext) : IRGenerationContext :=
  {| m_functions := m_functions c;
     m_functionGenerationQueue := f (m_functionGenerationQueue c);
     m_localVariables := m_localVariables c;
     m_internalDispatchMap := m_internalDispatchMap c;
     m_internalDispatchTargetCandidates := m_internalDispatchTargetCandidates c |}.

Definition set_locals (f : gmap N IRVariable → gmap N IRVariable)
    (c : IRGenerationContext) : IRGenerationContext :=
  {| m_functions := m_functions c;
     m_functionGenerationQueue := m_functionGenerationQueue c;
     m_localVariables := f (m_localVariables c);
     m_internalDispatchMap := m_internalDispatchMap c;
     m_internalDispatchTargetCandidates := m_internalDispatchTargetCandidates c |}.

Definition set_dispatch (f : gmap Arity (gset N) → gmap Arity (gset N))
    (c : IRGenerationContext) : IRGenerationContext :=
  {| m_functions := m_functions c;
     m_functionGenerationQueue := m_functionGenerationQueue c;
     m_localVariables := m_localVariables c;
     m_internalDispatchMap := f (m_internalDispatchMap c);
     m_internalDispatchTargetCandidates := m_internalDispatchTargetCandidates c |}.

Definition set_candidates (f : gmap Arity (gset N) → gmap Arity (gset N))
    (c : IRGenerationContext) : IRGenerationContext :=
  {| m_functions := m_functions c;
     m_functionGenerationQueue := m_functionGenerationQueue c;
     m_localVariables := m_localVariables c;
     m_internalDispatchMap := m_internalDispatchMap c;
     m_internalDispatchTargetCandidates := f (m_internalDispatchTargetCandidates c) |}.

(** Both maps of the dispatch registry emptied. *)
Definition cleared (ctx : IRGenerationContext) : IRGenerationContext :=
  set_dispatch (λ _, ∅) (set_candidates (λ _, ∅) ctx).

(** The outcome of an operation. *)
Inductive result (A : Type) : Type :=
  | Ok (a : A)
  | AssertionFailed (msg : string).
Arguments Ok {A} a.
Arguments AssertionFailed {A} msg.

Definition M (A : Type) : Type :=
  IRGenerationContext → result (A * IRGenerationContext).

Definition pure {A} (a : A) : M A := λ c, Ok (a, c).

Definition bind {A B} (m : M A) (k : A → M B) : M B := λ c,
  match m c with
  | Ok (a, c') => k a c'
  | AssertionFailed msg => AssertionFailed msg
  end.

Definition gets {A} (f : IRGenerationContext → A) : M A := λ c, Ok (f c, c).

Definition modify (f : IRGenerationContext → IRGenerationContext) : M unit :=
  λ c, Ok (tt, f c).

Definition solAssert (condition : bool) (msg : string) : M unit := λ c,
  if condition then Ok (tt, c) else AssertionFailed msg.

Declare Scope ctx_scope.
Delimit Scope ctx_scope with ctx.
Notation "'let*' x := m 'in' k" := (bind m (λ x, k))
  (at level 10, x name, m at level 100, k at level 200) : ctx_scope.
Notation "m ;;; k" := (bind m (λ _, k))
  (at level 100, k at level 200, right associativity) : ctx_scope.

(** A range-based [for] over a container, the body run for its effect. *)
Fixpoint for_each {A} (xs : list A) (body : A → M unit) : M unit :=
  match xs with
  | [] => pure tt
  | x :: xs => bind (body x) (λ _, for_each xs body)
  end.

(** The state an operation ends in, and the value it returns. *)
Definition outcome_state {A} (r : result (A * IRGenerationContext))
    : option IRGenerationContext :=
  match r with Ok (_, c) => Some c | AssertionFailed _ => None end.

Definition outcome_value {A} (r : result (A * IRGenerationContext)) : option A :=
  match r with Ok (a, _) => Some a | AssertionFailed _ => None end.

Definition failed {A} (r : result A) : Prop :=
  match r with Ok _ => False | AssertionFailed _ => True end.

(** ** The code registry *)

(** Modelled from the spec: [MultiUseYulFunctionCollector::contains] is not in
    this file; the registry is the "already generated" predicate of the
    worklist. *)
Definition contains (registry : gmap string string) (name : string) : bool :=
  bool_decide (is_Some (registry !! name)).

(** Modelled from the spec: [MultiUseYulFunctionCollector::createFunction] is
    not in this file; a request is memoized by its name, a second request for
    a name returns the fragment rendered before and does not render again. *)
Definition createFunction (name : string) (creator : unit → result string)
    : M string := λ c,
  match m_functions c !! name with
  | Some fragment => Ok (fragment, c)
  | None =>
      match creator tt with
      | Ok fragment => Ok (fragment, set_functions (<[name := fragment]>) c)
      | AssertionFailed msg => AssertionFailed msg
      end
  end.

(** ** Templates *)

(** Modelled from the spec: the template engine (libsolutil/Whiskers) is not
    in this file.  A template is text with placeholders: [<x>] stands for the
    string parameter [x], and the part between [<#l>] and [</l>] is rendered
    once for each element of the list parameter [l], in order, with the
    parameters of that element added to the enclosing ones.  The spec asks of
    the dispatcher one case per function and one default case, which is what
    rendering the template of [internalDispatch] this way gives. *)
#[local] Unset Elimination Schemes.
Inductive Template : Type :=
  | Text (text : string)
  | Tag (name : string)
  | ListSection (name : string) (body : list Template).
#[local] Set Elimination Schemes.

Definition StringMap : Type := gmap string string.

Definition result_append (a b : result string) : result string :=
  match a, b with
  | Ok x, Ok y => Ok (x +:+ y)
  | AssertionFailed msg, _ => AssertionFailed msg
  | Ok _, AssertionFailed msg => AssertionFailed msg
  end.

Fixpoint replace (parameters : StringMap)
    (listParameters : gmap string (list StringMap)) (t : Template)
    : result string :=
  match t with
  | Text text => Ok text
  | Tag name =>
      match parameters !! name with
      | Some value => Ok value
      | None => AssertionFailed ("Value for tag " +:+ name +:+ " not provided.")
      end
  | ListSection name body =>
      match listParameters !! name with
      | Some elements =>
          foldr (λ element rest,
                   result_append
                     ((fix items (ts : list Template) : result string :=
                         match ts with
                         | [] => Ok ""
                         | t :: ts =>
                             result_append
                               (replace (parameters ∪ element) listParameters t)
                               (items ts)
                         end) body)
                     rest)
                (Ok "") elements
      | None => AssertionFailed ("List parameter " +:+ name +:+ " not set.")
      end
  end.

Fixpoint render (parameters : StringMap)
    (listParameters : gmap string (list StringMap)) (ts : list Template)
    : result string :=
  match ts with
  | [] => Ok ""
  | t :: ts =>
      result_append (replace parameters listParameters t)
                    (render parameters listParameters ts)
  end.

(** Modelled from the spec: [suffixedVariableNameList] is declared in another
    file; it lists the names [base ++ i] for the suffixes from the start
    (inclusive) to the end (exclusive), separated by a comma and a space, so
    that a call passes as many slots as the arity says. *)
Fixpoint suffixedNames (_baseName : string) (_startSuffix : N) (count : nat)
    : list string :=
  match count with
  | O => []
  | S count =>
      (_baseName +:+ to_string _startSuffix)
        :: suffixedNames _baseName (N.succ _startSuffix) count
  end.

Definition suffixedVariableNameList (_baseName : string)
    (_startSuffix _endSuffix : N) : string :=
  if (_startSuffix <? _endSuffix)%N
  then String.concat ", "
         (suffixedNames _baseName _startSuffix (N.to_nat (_endSuffix - _startSuffix)))
  else String.concat ", "
         (rev (suffixedNames _baseName _endSuffix (N.to_nat (_startSuffix - _endSuffix)))).

(** The parameters of one element of the list [cases]. *)
Definition caseParameters (funID name : string) : StringMap :=
  {[ "funID" := funID; "name" := name ]}.

(** The part of the template between [<#cases>] and [</cases>]. *)
Definition caseBody : list Template :=
  [ Text (LF +:+ tabs 4 +:+ "case "); Tag "funID";
    Text (LF +:+ tabs 4 +:+ "{" +:+ LF +:+ tabs 5);
    Tag "out"; Text " "; Tag "assignment_op"; Text " "; Tag "name";
    Text "("; Tag "in";
    Text (")" +:+ LF +:+ tabs 4 +:+ "}" +:+ LF +:+ tabs 4) ].

(** The string parameters of the template. *)
Definition templateParameters (outs op arrow ins comma funName : string)
    : StringMap :=
  <["out" := outs]> (<["assignment_op" := op]> (<["arrow" := arrow]>
  (<["in" := ins]> (<["comma" := comma]> (<["functionName" := funName]> ∅))))).

(** The template of the dispatch function, as [internalDispatch] spells it. *)
Definition dispatchTemplate : list Template :=
  [ Text (LF +:+ tabs 3 +:+ "function "); Tag "functionName";
    Text "(fun "; Tag "comma"; Text " "; Tag "in"; Text ") ";
    Tag "arrow"; Text " "; Tag "out";
    Text (" {" +:+ LF +:+ tabs 4 +:+ "switch fun" +:+ LF +:+ tabs 4);
    ListSection "cases" caseBody;
    Text (LF +:+ tabs 4 +:+ "default { invalid() }" +:+ LF +:+ tabs 3 +:+ "}"
          +:+ LF +:+ tabs 2) ].

Section Generation.

(** The AST: the node at an address. *)
Variable functionAt : N → FunctionDefinition.
Variable variableAt : N → VariableDeclaration.

(** The member [m_functionGenerationQueue] is declared in the header, which
    gives its comparator; [queue_key] is the key that comparator orders the
    queued pointers by. *)
Variable queue_key : N → Z.

(** *** Naming *)

(** [IRGenerationContext::functionName(FunctionDefinition const&)]. *)
Definition functionName (f : FunctionDefinition) : string :=
  "fun_" +:+ fd_name f +:+ "_" +:+ to_string (fd_id f).

(** [IRGenerationContext::functionName(VariableDeclaration const&)], the
    overload that names the getter of a variable. *)
Definition getterFunctionName (v : VariableDeclaration) : string :=
  "getter_fun_" +:+ vd_name v +:+ "_" +:+ to_string (vd_id v).

(** [IRGenerationContext::internalDispatchFunctionName]. *)
Definition internalDispatchFunctionName (a : Arity) : string :=
  "dispatch_internal" +:+ "_in_" +:+ to_string (ar_in a) +:+
  "_out_" +:+ to_string (ar_out a).

(** *** The function generation queue *)

(** [IRGenerationContext::enqueueFunctionForCodeGeneration]; the argument is
    the address of the function passed by reference. *)
Definition enqueueFunctionForCodeGeneration (_function : N) : M string :=
  (let name := functionName (functionAt _function) in
   let* registry := gets m_functions in
   (if negb (contains registry name)
    then modify (set_queue (λ q, {[_function]} ∪ q))
    else pure tt);;;
   pure name)%ctx.

(** A function whose code is not in the registry yet. *)
Definition not_generated (ctx : IRGenerationContext) (p : N) : Prop :=
  m_functions ctx !! functionName (functionAt p) = None.

#[global] Instance not_generated_dec ctx p : Decision (not_generated ctx p).
Proof. unfold not_generated. apply _. Defined.

(** [IRGenerationContext::dequeueFunctionForCodeGeneration]: the result is
    [*begin()], which is then erased. *)
Definition dequeueFunctionForCodeGeneration : M N :=
  (let* queue := gets m_functionGenerationQueue in
   solAssert (negb (bool_decide (queue = ∅))) "";;;
   let result := default 0%N (head (std_set_elements queue_key queue)) in
   modify (set_queue (λ q, q ∖ {[result]}));;;
   pure result)%ctx.

(** *** Local variables *)

(** [IRGenerationContext::addLocalVariable]. *)
Definition addLocalVariable (_varDecl : N) : M IRVariable :=
  (let* locals := gets m_localVariables in
   let '(locals', it_second, didInsert) :=
     emplace _varDecl {| iv_declaration := _varDecl |} locals in
   modify (set_locals (λ _, locals'));;;
   solAssert didInsert "Local variable added multiple times.";;;
   pure it_second)%ctx.

(** [IRGenerationContext::localVariable]; [std::map::at] throws on a missing
    key, which the assertion before it excludes. *)
Definition localVariable (_varDecl : N) : M IRVariable :=
  (let* locals := gets m_localVariables in
   solAssert (bool_decide (map_count locals _varDecl ≠ 0))
     ("Unknown variable: " +:+ vd_name (variableAt _varDecl));;;
   match locals !! _varDecl with
   | Some v => pure v
   | None => λ _, AssertionFailed "map::at"
   end)%ctx.

(** *** The registry of internal dispatch functions *)

(** [IRGenerationContext::functionArity(FunctionType const&)]. *)
Definition functionArityOfType (_functionType : FunctionType) : Arity :=
  {| ar_in := parameterTypes_sizeOnStack _functionType;
     ar_out := returnParameterTypes_sizeOnStack _functionType |}.

(** [IRGenerationContext::functionArity(FunctionDefinition const&)]: asserts
    that the callable function type is not null. *)
Definition functionArity (_function : N) : M Arity :=
  match fd_callable (functionAt _function) with
  | Some functionType => pure (functionArityOfType functionType)
  | None => λ _, AssertionFailed ""
  end.

(** [IRGenerationContext::consumeInternalDispatchMap]. *)
Definition consumeInternalDispatchMap : M (gmap Arity (gset N)) :=
  (let* result := gets m_internalDispatchMap in
   modify (set_candidates (λ _, ∅));;;
   modify (set_dispatch (λ _, ∅));;;
   solAssert (bool_decide (map_Forall (λ _ functions, functions ≠ ∅) result))
     "Internal dispatch function registered even though no functions of the corresponding arity to be dispatched were found";;;
   pure result)%ctx.

(** [IRGenerationContext::registerInternalDispatchTargetCandidate]. *)
Definition registerInternalDispatchTargetCandidate (_function : N) : M string :=
  (let* arity := functionArity _function in
   let* dispatch := gets m_internalDispatchMap in
   let* candidates := gets m_internalDispatchTargetCandidates in
   solAssert (bool_decide (map_count dispatch arity = 0) ||
              bool_decide (map_count candidates arity = 0)) "";;;
   (if bool_decide (map_count dispatch arity = 0)
    then
      modify (set_candidates (try_emplace arity ∅));;;
      modify (set_candidates (subscript_insert arity _function))
    else
      modify (set_dispatch (subscript_insert arity _function));;;
      let* _ := enqueueFunctionForCodeGeneration _function in
      pure tt);;;
   pure (internalDispatchFunctionName arity))%ctx.

(** [IRGenerationContext::registerInternalDispatch].  The range expression
    [m_internalDispatchMap[_arity]] of the loop creates the entry of the
    arity when there is none. *)
Definition registerInternalDispatch (_arity : Arity) : M string :=
  (let* dispatch := gets m_internalDispatchMap in
   let* candidates := gets m_internalDispatchTargetCandidates in
   solAssert (bool_decide (map_count dispatch _arity = 0) ||
              bool_decide (map_count candidates _arity = 0)) "";;;
   (if bool_decide (map_count dispatch _arity = 0)
    then
      (if bool_decide (0 < map_count candidates _arity)
       then
         modify (set_dispatch (subscript_assign _arity (at_key candidates _arity)));;;
         modify (set_candidates (delete _arity))
       else pure tt);;;
      modify (set_dispatch (subscript _arity));;;
      let* dispatch := gets m_internalDispatchMap in
      for_each (std_set_elements by_address (at_key dispatch _arity))
        (λ function,
           let* _ := enqueueFunctionForCodeGeneration function in pure tt)
    else pure tt);;;
   pure (internalDispatchFunctionName _arity))%ctx.

(** The loop of [internalDispatch] that checks the functions and collects a
    case for each. *)
Fixpoint dispatchCases (arity : Arity) (functions : list N) : M (list StringMap) :=
  match functions with
  | [] => pure []
  | function :: functions =>
      (solAssert (negb (bool_decide (function = 0%N))) "";;;
       let* functionArity_ := functionArity function in
       solAssert (bool_decide (functionArity_ = arity))
         "One dispatch function can only handle functions of the same arity";;;
       solAssert (negb (fd_isConstructor (functionAt function))) "";;;
       solAssert (negb (bool_decide (fd_id (functionAt function) = 0%Z)))
         "Unexpected function ID: 0";;;
       let* cases := dispatchCases arity functions in
       pure (caseParameters (to_string (fd_id (functionAt function)))
                            (functionName (functionAt function))
             :: cases))%ctx
  end.

(** The string parameters [internalDispatch] sets on its template. *)
Definition dispatchParameters (funName : string) (arity : Arity) : StringMap :=
  templateParameters
    (suffixedVariableNameList "out_" 0 (ar_out arity))
    (if (0 <? ar_out arity)%N then ":=" else "")
    (if (0 <? ar_out arity)%N then "->" else "")
    (suffixedVariableNameList "in_" 0 (ar_in arity))
    (if (0 <? ar_in arity)%N then "," else "")
    funName.

(** [IRGenerationContext::internalDispatch]; the set is a
    [std::set<FunctionDefinition const*>], iterated by address. *)
Definition internalDispatch (_functions : gset N) : M string :=
  (solAssert (negb (bool_decide (_functions = ∅))) "";;;
   let functions := std_set_elements by_address _functions in
   let* arity := functionArity (default 0%N (head functions)) in
   let* cases := dispatchCases arity functions in
   let funName := internalDispatchFunctionName arity in
   createFunction funName (λ _,
     render (dispatchParameters funName arity) {[ "cases" := cases ]}
       dispatchTemplate))%ctx.

(** *** The text of a dispatch function *)

(** The parameter and the return variables of a dispatch function. *)
Definition inNames (arity : Arity) : list string :=
  suffixedNames "in_" 0 (N.to_nat (ar_in arity)).

Definition outNames (arity : Arity) : list string :=
  suffixedNames "out_" 0 (N.to_nat (ar_out arity)).

(** One case of the switch: the identifier of a function, and the call of
    the function named [name] with the given arguments and results. *)
Definition caseBranch (outs assignment_op ins funID name : string) : string :=
  LF +:+ tabs 4 +:+ "case " +:+ funID +:+
  LF +:+ tabs 4 +:+ "{" +:+
  LF +:+ tabs 5 +:+ outs +:+ " " +:+ assignment_op +:+ " " +:+ name +:+
    "(" +:+ ins +:+ ")" +:+
  LF +:+ tabs 4 +:+ "}" +:+
  LF +:+ tabs 4.

Definition defaultBranch : string :=
  LF +:+ tabs 4 +:+ "default { invalid() }" +:+ LF +:+ tabs 3 +:+ "}" +:+
  LF +:+ tabs 2.

Definition dispatchFunctionText
    (funName comma ins arrow outs : string) (branches : list string) : string :=
  LF +:+ tabs 3 +:+ "function " +:+ funName +:+ "(fun " +:+ comma +:+ " " +:+
    ins +:+ ") " +:+ arrow +:+ " " +:+ outs +:+ " {" +:+
  LF +:+ tabs 4 +:+ "switch fun" +:+
  LF +:+ tabs 4 +:+ foldr String.append defaultBranch branches.

(** The case of the function at an address, in a dispatch function of the
    given arity. *)
Definition caseBranchOf (arity : Arity) (function : N) : string :=
  caseBranch (String.concat ", " (outNames arity))
    (if (0 <? ar_out arity)%N then ":=" else "")
    (String.concat ", " (inNames arity))
    (to_string (fd_id (functionAt function)))
    (functionName (functionAt function)).

Definition dispatcherOf (arity : Arity) (functions : list N) : string :=
  dispatchFunctionText (internalDispatchFunctionName arity)
    (if (0 <? ar_in arity)%N then "," else "")
    (String.concat ", " (inNames arity))
    (if (0 <? ar_out arity)%N then "->" else "")
    (String.concat ", " (outNames arity))
    (map (caseBranchOf arity) functions).

(** What [internalDispatch] asserts of each function it is given. *)
Definition dispatchable (arity : Arity) (function : N) : Prop :=
  function ≠ 0%N ∧
  functionArityOfType <$> fd_callable (functionAt function) = Some arity ∧
  fd_isConstructor (functionAt function) = false ∧
  fd_id (functionAt function) ≠ 0%Z.

End Generation.

(** The number of positions of a text at which a pattern starts. *)
Fixpoint occurrences (pattern text : string) : nat :=
  match text with
  | EmptyString => 0
  | String _ rest =>
      (if String.prefix pattern text then 1 else 0) + occurrences pattern rest
  end.

(** ** The invariant of the dispatch registry *)

(** What the assertion at the head of both registration functions checks, for
    every arity: no arity is confirmed and has candidates at once. *)
Definition dispatch_invariant (ctx : IRGenerationContext) : Prop :=
  ∀ a, m_internalDispatchMap ctx !! a = None ∨
       m_internalDispatchTargetCandidates ctx !! a = None.

(** ** A sample compilation unit *)

Module Sample.

Definition oneToOne : FunctionType :=
  {| parameterTypes_sizeOnStack := 1; returnParameterTypes_sizeOnStack := 1 |}.

Definition nullary : FunctionType :=
  {| parameterTypes_sizeOnStack := 0; returnParameterTypes_sizeOnStack := 0 |}.

(** Two functions of arity (1, 1): [A] with identifier 7 at address 1 and [B]
    with identifier 5 at address 2. *)
Definition functionAt (p : N) : FunctionDefinition :=
  match p with
  | 1%N => {| fd_name := "A"; fd_id := 7; fd_isConstructor := false;
              fd_callable := Some oneToOne |}
  | 2%N => {| fd_name := "B"; fd_id := 5; fd_isConstructor := false;
              fd_callable := Some oneToOne |}
  | _ => {| fd_name := "f"; fd_id := 100 + Z.of_N p; fd_isConstructor := false;
            fd_callable := Some nullary |}
  end.

Definition variableAt (p : N) : VariableDeclaration :=
  {| vd_name := "x"; vd_id := Z.of_N p |}.

Definition arity11 : Arity := {| ar_in := 1; ar_out := 1 |}.

(** Both functions are candidates, no dispatch is confirmed. *)
Definition withCandidates : IRGenerationContext :=
  set_candidates (λ _, {[ arity11 := {[ 1%N; 2%N ]} ]}) emptyContext.

(** The dispatch of arity (1, 1) is confirmed, with [A] in it. *)
Definition withConfirmed : IRGenerationContext :=
  set_dispatch (λ _, {[ arity11 := {[ 1%N ]} ]}) emptyContext.

(** Both functions are pending. *)
Definition withPending : IRGenerationContext :=
  set_queue (λ _, {[ 1%N; 2%N ]}) emptyContext.

(** The variable at address 3 is bound. *)
Definition withLocal : IRGenerationContext :=
  set_locals (λ _, {[ 3%N := {| iv_declaration := 3 |} ]}) emptyContext.

End Sample.

(** ** The other functions of the context *)

(** A contract and an expression, as far as this file reads them: the name
    and the identifier of the contract, the identifier of the expression and
    the [tryCall] flag of its function call annotation. *)
Record ContractDefinition := {
  cd_name : string;
  cd_id : Z;
}.

Record Expression := {
  ex_id : Z;
  ex_tryCall : bool;
}.

(** [IRGenerationContext::creationObjectName]; [util::toString] prints an
    identifier as [std::to_string] does. *)
Definition creationObjectName (_contract : ContractDefinition) : string :=
  cd_name _contract +:+ "_" +:+ to_string (cd_id _contract).

(** [IRGenerationContext::runtimeObjectName]. *)
Definition runtimeObjectName (_contract : ContractDefinition) : string :=
  cd_name _contract +:+ "_" +:+ to_string (cd_id _contract) +:+ "_deployed".

(** [IRGenerationContext::trySuccessConditionVariable], a const member: it
    reads no state. *)
Definition trySuccessConditionVariable (_expression : Expression)
    : result string :=
  if ex_tryCall _expression
  then Ok ("trySuccessCondition_" +:+ to_string (ex_id _expression))
  else AssertionFailed
         "Parameter must be a FunctionCall with tryCall-annotation set.".

(** The members of the context that the functions above do not touch: the
    most derived contract (a pointer, null until it is set), the storage
    locations of the state variables (a slot and a byte offset for each
    declaration) and the counter of the Yul variables. *)
Record OtherMembers := {
  m_mostDerivedContract : N;
  m_stateVariables : gmap N (N * N);
  m_varCounter : N;
}.

(** [IRGenerationContext::mostDerivedContract]. *)
Definition mostDerivedContract (members : OtherMembers) : result N :=
  if bool_decide (m_mostDerivedContract members ≠ 0%N)
  then Ok (m_mostDerivedContract members)
  else AssertionFailed "Most derived contract requested but not set.".

(** [IRGenerationContext::addStateVariable]: [operator[]] followed by an
    assignment, which overwrites. *)
Definition addStateVariable (_declaration : N) (_storageOffset : N)
    (_byteOffset : N) (members : OtherMembers) : OtherMembers :=
  {| m_mostDerivedContract := m_mostDerivedContract members;
     m_stateVariables :=
       <[_declaration := (_storageOffset, _byteOffset)]>
         (m_stateVariables members);
     m_varCounter := m_varCounter members |}.

Section YulVariables.

(** The member [m_varCounter] is declared in the header; [counterModulus] is
    the number of values of its unsigned type, at which [++] wraps around. *)
Variable counterModulus : N.

(** [IRGenerationContext::newYulVariable]: the counter is incremented first. *)
Definition newYulVariable (members : OtherMembers) : string * OtherMembers :=
  let counter := ((m_varCounter members + 1) mod counterModulus)%N in
  ("_" +:+ to_string counter,
   {| m_mostDerivedContract := m_mostDerivedContract members;
      m_stateVariables := m_stateVariables members;
      m_varCounter := counter |}).

(** A number of calls of [newYulVariable] in a row, and the names they
    return, in order. *)
Fixpoint newYulVariables (calls : nat) (members : OtherMembers)
    : list string * OtherMembers :=
  match calls with
  | O => ([], members)
  | S calls =>
      let '(name, members) := newYulVariable members in
      let '(names, members) := newYulVariables calls members in
      (name :: names, members)
  end.

End YulVariables.

(** ** Sequences of calls *)

Section Calls.

Variable functionAt : N → FunctionDefinition.
Variable variableAt : N → VariableDeclaration.
Variable queue_key : N → Z.

(** A call of one of the functions that change the context, or may fail. *)
Inductive Call : Type :=
  | CallEnqueue (_function : N)
  | CallDequeue
  | CallAddLocalVariable (_varDecl : N)
  | CallLocalVariable (_varDecl : N)
  | CallRegisterCandidate (_function : N)
  | CallRegisterDispatch (_arity : Arity)
  | CallConsume
  | CallInternalDispatch (_functions : gset N).

Definition discard {A} (m : M A) : M unit := bind m (λ _, pure tt).

Definition call (c : Call) : M unit :=
  match c with
  | CallEnqueue f => discard (enqueueFunctionForCodeGeneration functionAt f)
  | CallDequeue => discard (dequeueFunctionForCodeGeneration queue_key)
  | CallAddLocalVariable d => discard (addLocalVariable d)
  | CallLocalVariable d => discard (localVariable variableAt d)
  | CallRegisterCandidate f =>
      discard (registerInternalDispatchTargetCandidate functionAt f)
  | CallRegisterDispatch a => discard (registerInternalDispatch functionAt a)
  | CallConsume => discard consumeInternalDispatchMap
  | CallInternalDispatch fs => discard (internalDispatch functionAt fs)
  end.

(** The calls of a list one after the other; the first failure ends them.
    The result is the list of the functions that the calls of
    [dequeueFunctionForCodeGeneration] returned, in order. *)
Fixpoint calls (cs : list Call) : M (list N) :=
  match cs with
  | [] => pure []
  | CallDequeue :: cs =>
      bind (dequeueFunctionForCodeGeneration queue_key) (λ first,
      bind (calls cs) (λ rest, pure (first :: rest)))
  | c :: cs => bind (call c) (λ _, calls cs)
  end.

(** Calls of [dequeueFunctionForCodeGeneration] in a row, and the functions
    they return, in order. *)
Fixpoint dequeueMany (n : nat) : M (list N) :=
  match n with
  | O => pure []
  | S n =>
      bind (dequeueFunctionForCodeGeneration queue_key) (λ first,
      bind (dequeueMany n) (λ rest, pure (first :: rest)))
  end.

End Calls.

(** Every candidate set has a function in it. *)
Definition candidates_populated (ctx : IRGenerationContext) : Prop :=
  ∀ a functions,
    m_internalDispatchTargetCandidates ctx !! a = Some functions →
    functions ≠ ∅.

(** Every function of a confirmed set is pending, or has its code in the
    registry, or is one of the functions handed over for generation. *)
Definition confirmed_covered (functionAt : N → FunctionDefinition)
    (handed : list N) (ctx : IRGenerationContext) : Prop :=
  ∀ a functions p,
    m_internalDispatchMap ctx !! a = Some functions →
    p ∈ functions →
    p ∈ m_functionGenerationQueue ctx ∨
    ¬ not_generated functionAt ctx p ∨
    p ∈ handed.

(** The functions registered for an arity, confirmed or candidates. *)
Definition registered (ctx : IRGenerationContext) (a : Arity) : gset N :=
  at_key (m_internalDispatchMap ctx) a
  ∪ at_key (m_internalDispatchTargetCandidates ctx) a.

(** A sequence of calls on the sample compilation unit. *)
Definition sampleCalls : list Call :=
  [ CallRegisterCandidate 1; CallEnqueue 2; CallRegisterCandidate 2;
    CallRegisterDispatch Sample.arity11; CallDequeue;
    CallInternalDispatch {[ 1%N; 2%N ]} ].

(** * Properties *)

(** ** The order of a set *)

Lemma elem_of_std_set_elements key (s : gset N) x :
  x ∈ std_set_elements key s ↔ x ∈ s.
Proof.
  unfold std_set_elements.
  rewrite (merge_sort_Permutation (key_le key) (elements s)).
  apply elem_of_elements.
Qed.

Lemma length_std_set_elements key (s : gset N) :
  length (std_set_elements key s) = size s.
Proof.
  unfold std_set_elements.
  by rewrite (merge_sort_Permutation (key_le key) (elements s)).
Qed.

Lemma NoDup_std_set_elements key (s : gset N) :
  NoDup (std_set_elements key s).
Proof.
  unfold std_set_elements.
  rewrite (merge_sort_Permutation (key_le key) (elements s)).
  apply NoDup_elements.
Qed.

Lemma std_set_begin_None key (s : gset N) :
  head (std_set_elements key s) = None → s = ∅.
Proof.
  intros Hhd. apply leibniz_equiv, size_empty_inv.
  rewrite <- (length_std_set_elements key).
  by destruct (std_set_elements key s).
Qed.

(** [begin()] is an element, and no element comes before it. *)
Lemma std_set_begin_least key (s : gset N) p :
  head (std_set_elements key s) = Some p →
  p ∈ s ∧ ∀ q, q ∈ s → (key p ≤ key q)%Z.
Proof.
  intros Hhd.
  pose proof (StronglySorted_merge_sort (key_le key) (elements s)) as Hsorted.
  fold (std_set_elements key s) in Hsorted.
  destruct (std_set_elements key s) as [|x l] eqn:Hl; simplify_eq/=.
  split.
  - apply (elem_of_std_set_elements key). rewrite Hl. left.
  - intros q Hq. apply (elem_of_std_set_elements key) in Hq.
    rewrite Hl in Hq. apply elem_of_cons in Hq as [->|Hq]; [done|].
    apply StronglySorted_inv in Hsorted as [_ Hall].
    rewrite Forall_forall in Hall. by apply Hall.
Qed.

(** ** The monad *)

Ltac run_op :=
  repeat (unfold bind, gets, modify, pure, solAssert; simpl).

(** ** Maps of sets *)

Section MapsOfSets.

Context `{Countable K}.
Implicit Types (m : gmap K (gset N)) (k : K).

Lemma insert_try_emplace {V} (m' : gmap K V) k (v v' : V) :
  <[k := v]> (try_emplace k v' m') = <[k := v]> m'.
Proof.
  unfold try_emplace, emplace. destruct (m' !! k); simpl; [done|].
  apply insert_insert_eq.
Qed.

Lemma at_key_subscript m k : at_key (subscript k m) k = at_key m k.
Proof.
  unfold at_key, subscript, try_emplace, emplace.
  destruct (m !! k) eqn:Hk; simpl; [by rewrite Hk|].
  by rewrite lookup_insert_eq.
Qed.

Lemma subscript_present m k s : m !! k = Some s → subscript k m = m.
Proof. unfold subscript, try_emplace, emplace. by intros ->. Qed.

Lemma subscript_absent m k : m !! k = None → subscript k m = <[k := ∅]> m.
Proof. unfold subscript, try_emplace, emplace. by intros ->. Qed.

Lemma subscript_insert_eq m k p :
  subscript_insert k p m = <[k := {[p]} ∪ at_key m k]> m.
Proof.
  unfold subscript_insert. rewrite at_key_subscript.
  apply insert_try_emplace.
Qed.

Lemma subscript_assign_eq m k s : subscript_assign k s m = <[k := s]> m.
Proof. apply insert_try_emplace. Qed.

End MapsOfSets.

(** ** Strings *)

Lemma occurs_append c (a b : string) :
  occurs c (a +:+ b) ↔ occurs c a ∨ occurs c b.
Proof. induction a as [|c' a IH]; simpl; [tauto|]. rewrite IH. tauto. Qed.

Lemma pretty_N_char_digit x : is_digit (pretty_N_char x).
Proof.
  unfold is_digit, pretty_N_char.
  repeat case_match; vm_compute; lia.
Qed.

Lemma occurs_pretty_N_go c x s :
  occurs c (pretty_N_go x s) → is_digit c ∨ occurs c s.
Proof.
  revert s. induction (N.lt_wf_0 x) as [x _ IH]; intros s.
  destruct (decide (x = 0%N)) as [->|Hx]; [rewrite pretty_N_go_0; tauto|].
  rewrite pretty_N_go_step by lia. intros Hocc.
  apply IH in Hocc; [|apply N.div_lt; lia].
  destruct Hocc as [?|[->|?]]; auto using pretty_N_char_digit.
Qed.

Lemma occurs_to_string_N c (n : N) :
  occurs c (to_string n) → is_digit c.
Proof.
  unfold to_string, to_string_N, pretty, pretty_N. case_decide.
  - simpl. intros [->|[]]. unfold is_digit. vm_compute. lia.
  - intros Hocc. by apply occurs_pretty_N_go in Hocc as [?|[]].
Qed.

Lemma occurs_to_string_Z c (z : Z) :
  occurs c (to_string z) → is_digit c ∨ c = "-"%char.
Proof.
  unfold to_string, to_string_Z, pretty, pretty_Z.
  destruct z as [|x|x].
  - simpl. intros [->|[]]. left. unfold is_digit. vm_compute. lia.
  - intros Hocc. left. by apply (occurs_to_string_N c (N.pos x)).
  - simpl. intros [->|Hocc]; [by right|].
    left. by apply (occurs_to_string_N c (N.pos x)).
Qed.

Lemma underscore_not_in_to_string_Z (z : Z) : ¬ occurs "_"%char (to_string z).
Proof.
  intros Hocc. apply occurs_to_string_Z in Hocc as [Hd|?]; [|done].
  unfold is_digit in Hd. vm_compute in Hd. lia.
Qed.

#[global] Instance to_string_Z_inj : Inj (=) (=) (to_string : Z → string).
Proof. unfold to_string, to_string_Z. apply _. Qed.

#[global] Instance to_string_N_inj : Inj (=) (=) (to_string : N → string).
Proof. unfold to_string, to_string_N. apply _. Qed.

(** A string is split in one way only at the last occurrence of a character. *)
Lemma split_at_last c (a b d1 d2 : string) :
  ¬ occurs c d1 → ¬ occurs c d2 →
  a +:+ String c d1 = b +:+ String c d2 → a = b ∧ d1 = d2.
Proof.
  intros Hd1 Hd2. revert b.
  induction a as [|x a IH]; intros [|y b]; simpl; intros Heq.
  - by injection Heq as ->.
  - injection Heq as -> ->. destruct Hd1. apply occurs_append. right. by left.
  - injection Heq as -> <-. destruct Hd2. apply occurs_append. right. by left.
  - injection Heq as -> Heq. by apply IH in Heq as [-> ->].
Qed.

Section Properties.

Variable functionAt : N → FunctionDefinition.

Abbreviation enqueue := (enqueueFunctionForCodeGeneration functionAt).
Abbreviation queue := m_functionGenerationQueue.

(** ** The function generation queue *)

Lemma enqueue_eq (p : N) (ctx : IRGenerationContext) :
  enqueue p ctx =
  Ok (functionName (functionAt p),
      if contains (m_functions ctx) (functionName (functionAt p))
      then ctx else set_queue (λ q, {[p]} ∪ q) ctx).
Proof.
  unfold enqueueFunctionForCodeGeneration. run_op.
  by destruct (contains _ _).
Qed.

Lemma filter_eq_absent (p : N) (l : list N) :
  p ∉ l → filter (λ x, x = p) l = [].
Proof.
  induction l as [|y l IH]; [done|].
  intros Hnotin. rewrite filter_cons. case_decide as Hy.
  - subst y. exfalso. apply Hnotin. left.
  - apply IH. intros Hin. apply Hnotin. by right.
Qed.

Lemma gset_single_entry (p : N) (s : gset N) :
  p ∈ s → length (filter (λ x, x = p) (elements s)) = 1.
Proof.
  intros Hin. apply elem_of_elements in Hin.
  pose proof (NoDup_elements s) as Hnd.
  induction Hnd as [|x l Hx Hnd IH]; [by apply elem_of_nil in Hin|].
  rewrite filter_cons. case_decide as Hxp.
  - subst x. simpl. by rewrite filter_eq_absent.
  - apply elem_of_cons in Hin as [->|Hin]; [done|]. by apply IH.
Qed.

(** C6: [enqueueFunctionForCodeGeneration] always returns the name of the
    function.  The function is inserted into the pending set exactly when the
    registry holds no fragment under that name, nothing else changes, and a
    second call changes nothing more: the function is pending once. *)
Theorem enqueue_returns_name_and_is_idempotent (p : N) (ctx : IRGenerationContext) :
  let name := functionName (functionAt p) in
  ∃ ctx1,
    enqueue p ctx = Ok (name, ctx1) ∧
    enqueue p ctx1 = Ok (name, ctx1) ∧
    m_functions ctx1 = m_functions ctx ∧
    m_localVariables ctx1 = m_localVariables ctx ∧
    m_internalDispatchMap ctx1 = m_internalDispatchMap ctx ∧
    m_internalDispatchTargetCandidates ctx1 = m_internalDispatchTargetCandidates ctx ∧
    if contains (m_functions ctx) name
    then ctx1 = ctx
    else queue ctx1 = {[p]} ∪ queue ctx ∧
         length (filter (λ x, x = p) (elements (queue ctx1))) = 1.
Proof.
  intros name. rewrite enqueue_eq. fold name.
  destruct (contains (m_functions ctx) name) eqn:Hgen.
  - exists ctx. rewrite enqueue_eq. fold name. by rewrite Hgen.
  - exists (set_queue (λ q, {[p]} ∪ q) ctx).
    rewrite enqueue_eq. fold name. simpl. rewrite Hgen.
    split_and!; try done.
    + do 2 f_equal. destruct ctx; unfold set_queue; simpl. f_equal.
      by rewrite (assoc_L (∪)), (idemp_L (∪)).
    + apply gset_single_entry. set_solver.
Qed.

(** C4, as the code has it: [dequeueFunctionForCodeGeneration] fails exactly
    when nothing is pending; otherwise it removes and returns the first
    pending function in the order of the container: the returned function was
    pending, no pending function has a smaller key under the comparator of the
    queue, and one function less is pending. *)
Theorem dequeue_returns_first_of_container
    (queue_key : N → Z) (ctx : IRGenerationContext) :
  (failed (dequeueFunctionForCodeGeneration queue_key ctx) ↔ queue ctx = ∅) ∧
  match dequeueFunctionForCodeGeneration queue_key ctx with
  | AssertionFailed _ => True
  | Ok (p, ctx') =>
      head (std_set_elements queue_key (queue ctx)) = Some p ∧
      p ∈ queue ctx ∧
      (∀ q, q ∈ queue ctx → (queue_key p ≤ queue_key q)%Z) ∧
      ctx' = set_queue (λ pending, pending ∖ {[p]}) ctx ∧
      (p ∉ queue ctx') ∧
      size (queue ctx') + 1 = size (queue ctx)
  end.
Proof.
  unfold dequeueFunctionForCodeGeneration. run_op.
  case_bool_decide as Hempty; simpl; [done|].
  split; [done|].
  destruct (head (std_set_elements queue_key (queue ctx))) as [p|] eqn:Hhd.
  - apply std_set_begin_least in Hhd as [Hin Hleast]. simpl.
    split_and!; try done.
    + intros Hp. apply elem_of_difference in Hp as [_ Hp].
      apply Hp. by apply elem_of_singleton.
    + rewrite size_difference by (by apply singleton_subseteq_l).
      rewrite size_singleton.
      assert (size (queue ctx) ≠ 0); [|lia].
      intros Hz. apply size_empty_inv in Hz.
      rewrite Hz in Hin. by apply elem_of_empty in Hin.
  - by apply std_set_begin_None in Hhd.
Qed.

(** ** Local variables *)

(** C8: [addLocalVariable] fails exactly when the declaration is bound
    already, and otherwise stores the variable built from the declaration and
    returns it; [localVariable] fails exactly when the declaration is not
    bound, and otherwise returns the stored variable and changes nothing. *)
Theorem local_variable_binding
    (variableAt : N → VariableDeclaration) (decl : N)
    (ctx : IRGenerationContext) :
  match m_localVariables ctx !! decl with
  | Some v =>
      addLocalVariable decl ctx
        = AssertionFailed "Local variable added multiple times." ∧
      localVariable variableAt decl ctx = Ok (v, ctx)
  | None =>
      addLocalVariable decl ctx
        = Ok ({| iv_declaration := decl |},
              set_locals (<[decl := {| iv_declaration := decl |}]>) ctx) ∧
      localVariable variableAt decl ctx
        = AssertionFailed ("Unknown variable: " +:+ vd_name (variableAt decl))
  end.
Proof.
  unfold addLocalVariable, localVariable, emplace, map_count. run_op.
  destruct (m_localVariables ctx !! decl) as [v|] eqn:Hlookup; simpl.
  - split; [done|]. by destruct ctx.
  - done.
Qed.

(** ** The registry of internal dispatch functions *)

Lemma consumeInternalDispatchMap_eq (ctx : IRGenerationContext) :
  consumeInternalDispatchMap ctx =
  if bool_decide (map_Forall (λ _ functions, functions ≠ (∅ : gset N))
                    (m_internalDispatchMap ctx))
  then Ok (m_internalDispatchMap ctx, cleared ctx)
  else AssertionFailed
         "Internal dispatch function registered even though no functions of the corresponding arity to be dispatched were found".
Proof.
  unfold consumeInternalDispatchMap. run_op. by case_bool_decide.
Qed.

Lemma consume_fails_on_empty_group (ctx : IRGenerationContext) :
  failed (consumeInternalDispatchMap ctx)
  ↔ ∃ a, m_internalDispatchMap ctx !! a = Some ∅.
Proof.
  rewrite consumeInternalDispatchMap_eq. case_bool_decide as Hall; simpl.
  - split; [done|]. intros [a Ha]. by apply Hall in Ha.
  - split; [|done]. intros _.
    apply map_not_Forall in Hall; [|apply _].
    destruct Hall as (a & fs & Ha & Hfs). exists a.
    rewrite Ha. f_equal. destruct (decide (fs = ∅)); [done|]. by destruct Hfs.
Qed.

(** C2: [consumeInternalDispatchMap] returns the map of the confirmed arities
    and leaves both the candidates and the confirmed map empty; it fails
    exactly when some confirmed arity has an empty set of functions, so no
    such arity is ever returned. *)
Theorem consume_returns_confirmed_and_clears (ctx : IRGenerationContext) :
  (failed (consumeInternalDispatchMap ctx)
   ↔ ∃ a, m_internalDispatchMap ctx !! a = Some ∅) ∧
  match consumeInternalDispatchMap ctx with
  | AssertionFailed msg => True
  | Ok (result, ctx') =>
      result = m_internalDispatchMap ctx ∧
      (∀ a functions, result !! a = Some functions → functions ≠ ∅) ∧
      ctx' = cleared ctx ∧
      m_internalDispatchMap ctx' = ∅ ∧
      m_internalDispatchTargetCandidates ctx' = ∅
  end.
Proof.
  split; [apply consume_fails_on_empty_group|].
  rewrite consumeInternalDispatchMap_eq. case_bool_decide as Hall; [|done].
  by split_and!.
Qed.

(** ** Naming *)

(** C7: two function definitions with different identifiers get different
    names, and so do the getters of two variable declarations with different
    identifiers, whatever the display names are. *)
Theorem names_injective_in_identifier
    (f g : FunctionDefinition) (v w : VariableDeclaration) :
  (fd_id f ≠ fd_id g → functionName f ≠ functionName g) ∧
  (vd_id v ≠ vd_id w → getterFunctionName v ≠ getterFunctionName w).
Proof.
  unfold functionName, getterFunctionName. split; intros Hid Heq; apply Hid.
  - simpl in Heq. simplify_eq.
    apply split_at_last in Heq as [_ Heq];
      auto using underscore_not_in_to_string_Z.
    by apply (inj to_string).
  - simpl in Heq. simplify_eq.
    apply split_at_last in Heq as [_ Heq];
      auto using underscore_not_in_to_string_Z.
    by apply (inj to_string).
Qed.

(** ** Promotion of candidates *)

Lemma contains_false registry name :
  contains registry name = false ↔ registry !! name = None.
Proof.
  unfold contains. rewrite bool_decide_eq_false, <- eq_None_not_Some. done.
Qed.

Lemma map_count_0 `{Countable K} {V} (m : gmap K V) k :
  map_count m k = 0 ↔ m !! k = None.
Proof. unfold map_count. destruct (m !! k); naive_solver. Qed.

(** The loop that enqueues the functions of a confirmed arity adds those
    without a finished fragment to the pending set and changes nothing else. *)
Lemma for_each_enqueue (ps : list N) (ctx : IRGenerationContext) :
  for_each ps (λ function, bind (enqueue function) (λ _, pure tt)) ctx
  = Ok (tt, set_queue
              (λ q, q ∪ list_to_set (filter (not_generated functionAt ctx) ps)) ctx).
Proof.
  revert ctx. induction ps as [|p ps IH]; intros ctx; simpl.
  - unfold pure. do 2 f_equal. destruct ctx; unfold set_queue; simpl.
    f_equal. by rewrite (right_id_L ∅ (∪)).
  - unfold bind at 1 2. rewrite enqueue_eq. unfold pure at 1.
    rewrite IH. do 2 f_equal. rewrite filter_cons.
    destruct (contains _ _) eqn:Hgen.
    + rewrite decide_False; [done|].
      unfold not_generated. intros Hnone.
      apply contains_false in Hnone. congruence.
    + apply contains_false in Hgen. rewrite decide_True by done.
      destruct ctx; unfold set_queue, not_generated; simpl in *.
      f_equal. rewrite (assoc_L (∪)). f_equal. apply (comm_L (∪)).
Qed.

Lemma list_to_set_filter_std_set_elements (P : N → Prop)
    `{!∀ x, Decision (P x)} key (s : gset N) :
  list_to_set (filter P (std_set_elements key s)) =@{gset N} filter P s.
Proof.
  apply set_eq. intros x.
  rewrite elem_of_list_to_set, list_elem_of_filter, elem_of_filter.
  by rewrite elem_of_std_set_elements.
Qed.

(** What [registerInternalDispatch] does, in one equation: nothing for a
    confirmed arity; otherwise the candidates of the arity (none, if there
    are none) become its confirmed set and are enqueued. *)
Lemma registerInternalDispatch_eq (a : Arity) (ctx : IRGenerationContext) :
  m_internalDispatchMap ctx !! a = None ∨
  m_internalDispatchTargetCandidates ctx !! a = None →
  registerInternalDispatch functionAt a ctx =
  Ok (internalDispatchFunctionName a,
      match m_internalDispatchMap ctx !! a with
      | Some _ => ctx
      | None =>
          let moved := at_key (m_internalDispatchTargetCandidates ctx) a in
          set_queue (λ q, q ∪ filter (not_generated functionAt ctx) moved)
            (set_candidates (delete a)
               (set_dispatch (<[a := moved]>) ctx))
      end).
Proof.
  intros Hinv. unfold registerInternalDispatch.
  cbv [bind gets modify solAssert pure].
  destruct (m_internalDispatchMap ctx !! a) as [confirmed|] eqn:Hd.
  - destruct Hinv as [?|Hc]; [done|].
    assert (map_count (m_internalDispatchMap ctx) a ≠ 0) as Hn
      by (rewrite map_count_0; congruence).
    assert (map_count (m_internalDispatchTargetCandidates ctx) a = 0) as Hz
      by by apply map_count_0.
    by rewrite (bool_decide_eq_false_2 _ Hn), (bool_decide_eq_true_2 _ Hz).
  - assert (map_count (m_internalDispatchMap ctx) a = 0) as Hz
      by by apply map_count_0.
    rewrite (bool_decide_eq_true_2 _ Hz). simpl.
    destruct (m_internalDispatchTargetCandidates ctx !! a) as [moved|] eqn:Hc.
    + assert (0 < map_count (m_internalDispatchTargetCandidates ctx) a) as Hpos
        by (unfold map_count; rewrite Hc; lia).
      rewrite (bool_decide_eq_true_2 _ Hpos).
      pose proof for_each_enqueue as Hloop.
      cbv [bind pure] in Hloop. rewrite Hloop. clear Hloop.
      do 2 f_equal.
      unfold at_key. rewrite Hc. simpl.
      rewrite list_to_set_filter_std_set_elements.
      destruct ctx as [registry pending locals confirmed candidates].
      unfold set_queue, set_candidates, set_dispatch, not_generated in *.
      simpl in *. rewrite subscript_assign_eq.
      rewrite (subscript_present _ _ moved) by apply lookup_insert_eq.
      by rewrite lookup_insert_eq.
    + assert (¬ 0 < map_count (m_internalDispatchTargetCandidates ctx) a) as Hpos
        by (unfold map_count; rewrite Hc; lia).
      rewrite (bool_decide_eq_false_2 _ Hpos).
      pose proof for_each_enqueue as Hloop.
      cbv [bind pure] in Hloop. rewrite Hloop. clear Hloop.
      do 2 f_equal.
      unfold at_key. rewrite Hc. simpl.
      rewrite list_to_set_filter_std_set_elements.
      destruct ctx as [registry pending locals confirmed candidates].
      unfold set_queue, set_candidates, set_dispatch, not_generated in *.
      simpl in *. rewrite (subscript_absent _ _ Hd).
      rewrite lookup_insert_eq. simpl. by rewrite delete_id.
Qed.

(** What [registerInternalDispatchTargetCandidate] does, in one equation. *)
Lemma registerInternalDispatchTargetCandidate_eq
    (p : N) (ft : FunctionType) (ctx : IRGenerationContext) :
  fd_callable (functionAt p) = Some ft →
  m_internalDispatchMap ctx !! functionArityOfType ft = None ∨
  m_internalDispatchTargetCandidates ctx !! functionArityOfType ft = None →
  registerInternalDispatchTargetCandidate functionAt p ctx =
  Ok (internalDispatchFunctionName (functionArityOfType ft),
      match m_internalDispatchMap ctx !! functionArityOfType ft with
      | None =>
          set_candidates
            (λ m, <[functionArityOfType ft :=
                      {[p]} ∪ at_key m (functionArityOfType ft)]> m) ctx
      | Some confirmed =>
          let ctx1 :=
            set_dispatch (<[functionArityOfType ft := {[p]} ∪ confirmed]>) ctx in
          if contains (m_functions ctx) (functionName (functionAt p))
          then ctx1 else set_queue (λ q, {[p]} ∪ q) ctx1
      end).
Proof.
  intros Hcallable Hinv.
  unfold registerInternalDispatchTargetCandidate, functionArity.
  rewrite Hcallable. set (a := functionArityOfType ft) in *.
  pose proof enqueue_eq as Henq.
  cbv [bind gets modify solAssert pure] in *.
  destruct (m_internalDispatchMap ctx !! a) as [confirmed|] eqn:Hd.
  - destruct Hinv as [?|Hc]; [done|].
    assert (map_count (m_internalDispatchMap ctx) a ≠ 0) as Hn
      by (rewrite map_count_0; congruence).
    assert (map_count (m_internalDispatchTargetCandidates ctx) a = 0) as Hz
      by by apply map_count_0.
    rewrite (bool_decide_eq_false_2 _ Hn), (bool_decide_eq_true_2 _ Hz).
    simpl. rewrite Henq. do 2 f_equal.
    destruct ctx as [registry pending locals dispatch candidates].
    unfold set_queue, set_dispatch in *. simpl in *.
    rewrite subscript_insert_eq. unfold at_key. rewrite Hd. simpl.
    by destruct (contains _ _).
  - assert (map_count (m_internalDispatchMap ctx) a = 0) as Hz
      by by apply map_count_0.
    rewrite (bool_decide_eq_true_2 _ Hz). simpl. do 2 f_equal.
    destruct ctx as [registry pending locals dispatch candidates].
    unfold set_candidates. simpl. f_equal.
    rewrite subscript_insert_eq.
    fold (subscript a candidates). rewrite at_key_subscript.
    apply insert_try_emplace.
Qed.

(** C1: for an arity that is not confirmed and has candidates,
    [registerInternalDispatch] makes the whole candidate set the confirmed
    set of the arity, removes the arity from the candidates, and enqueues
    every moved function (each one without a finished fragment becomes
    pending); calling it again changes nothing and returns the same name. *)
Theorem registerDispatch_promotes_candidates
    (a : Arity) (moved : gset N) (ctx : IRGenerationContext) :
  m_internalDispatchMap ctx !! a = None →
  m_internalDispatchTargetCandidates ctx !! a = Some moved →
  ∃ ctx',
    registerInternalDispatch functionAt a ctx
      = Ok (internalDispatchFunctionName a, ctx') ∧
    m_internalDispatchMap ctx' = <[a := moved]> (m_internalDispatchMap ctx) ∧
    m_internalDispatchTargetCandidates ctx'
      = delete a (m_internalDispatchTargetCandidates ctx) ∧
    for_each (std_set_elements by_address moved)
      (λ function, bind (enqueue function) (λ _, pure tt))
      (set_candidates (delete a) (set_dispatch (<[a := moved]>) ctx))
      = Ok (tt, ctx') ∧
    queue ctx' = queue ctx ∪ filter (not_generated functionAt ctx) moved ∧
    m_functions ctx' = m_functions ctx ∧
    m_localVariables ctx' = m_localVariables ctx ∧
    registerInternalDispatch functionAt a ctx'
      = Ok (internalDispatchFunctionName a, ctx').
Proof.
  intros Hd Hc.
  rewrite registerInternalDispatch_eq by auto. rewrite Hd.
  unfold at_key. rewrite Hc. simpl.
  eexists. split; [reflexivity|]. split_and!; try done.
  - rewrite for_each_enqueue. do 2 f_equal.
    rewrite list_to_set_filter_std_set_elements.
    by destruct ctx.
  - rewrite registerInternalDispatch_eq.
    + simpl. by rewrite lookup_insert_eq.
    + right. simpl. apply lookup_delete_eq.
Qed.

(** C9: for an arity that is neither confirmed nor has candidates,
    [registerInternalDispatch] does not fail: the arity becomes confirmed
    with an empty set, nothing is enqueued and the name of the dispatch
    function is returned.  It is [consumeInternalDispatchMap] that fails on
    the state reached. *)
Theorem registerDispatch_without_candidates
    (a : Arity) (ctx : IRGenerationContext) :
  m_internalDispatchMap ctx !! a = None →
  m_internalDispatchTargetCandidates ctx !! a = None →
  registerInternalDispatch functionAt a ctx
    = Ok (internalDispatchFunctionName a, set_dispatch (<[a := ∅]>) ctx) ∧
  queue (set_dispatch (<[a := ∅]>) ctx) = queue ctx ∧
  m_internalDispatchMap (set_dispatch (<[a := ∅]>) ctx) !! a = Some ∅ ∧
  failed (consumeInternalDispatchMap (set_dispatch (<[a := ∅]>) ctx)).
Proof.
  intros Hd Hc.
  rewrite registerInternalDispatch_eq by auto. rewrite Hd.
  unfold at_key. rewrite Hc. simpl.
  split_and!; try done.
  - do 2 f_equal.
    destruct ctx as [registry pending locals dispatch candidates].
    unfold set_queue, set_candidates, set_dispatch. simpl in *.
    f_equal.
    + apply set_eq. intros x.
      rewrite elem_of_union, elem_of_filter, elem_of_empty. tauto.
    + by apply delete_id.
  - apply lookup_insert_eq.
  - apply consume_fails_on_empty_group.
    exists a. simpl. apply lookup_insert_eq.
Qed.

(** C3: when the arity of the function is confirmed,
    [registerInternalDispatchTargetCandidate] adds the function to the
    confirmed set of the arity and enqueues it, and the arity gets no
    candidate entry; when the arity is absent or has candidates only, the
    function is added to the candidates of the arity, the pending set and the
    confirmed map stay as they are. *)
Theorem registerCandidate_by_state
    (p : N) (ft : FunctionType) (ctx : IRGenerationContext) :
  fd_callable (functionAt p) = Some ft →
  m_internalDispatchMap ctx !! functionArityOfType ft = None ∨
  m_internalDispatchTargetCandidates ctx !! functionArityOfType ft = None →
  ∃ ctx',
    registerInternalDispatchTargetCandidate functionAt p ctx
      = Ok (internalDispatchFunctionName (functionArityOfType ft), ctx') ∧
    m_functions ctx' = m_functions ctx ∧
    m_localVariables ctx' = m_localVariables ctx ∧
    match m_internalDispatchMap ctx !! functionArityOfType ft with
    | Some confirmed =>
        m_internalDispatchMap ctx'
          = <[functionArityOfType ft := {[p]} ∪ confirmed]>
              (m_internalDispatchMap ctx) ∧
        m_internalDispatchTargetCandidates ctx'
          = m_internalDispatchTargetCandidates ctx ∧
        m_internalDispatchTargetCandidates ctx' !! functionArityOfType ft
          = None ∧
        enqueue p
          (set_dispatch (<[functionArityOfType ft := {[p]} ∪ confirmed]>) ctx)
          = Ok (functionName (functionAt p), ctx') ∧
        queue ctx' =
          if contains (m_functions ctx) (functionName (functionAt p))
          then queue ctx else {[p]} ∪ queue ctx
    | None =>
        m_internalDispatchTargetCandidates ctx'
          = <[functionArityOfType ft :=
                {[p]} ∪ at_key (m_internalDispatchTargetCandidates ctx)
                          (functionArityOfType ft)]>
              (m_internalDispatchTargetCandidates ctx) ∧
        m_internalDispatchMap ctx' = m_internalDispatchMap ctx ∧
        m_internalDispatchMap ctx' !! functionArityOfType ft = None ∧
        queue ctx' = queue ctx
    end.
Proof.
  intros Hcallable Hinv.
  rewrite (registerInternalDispatchTargetCandidate_eq p ft) by done.
  eexists. split; [reflexivity|].
  destruct (m_internalDispatchMap ctx !! functionArityOfType ft)
    as [confirmed|] eqn:Hd.
  - destruct Hinv as [?|Hc]; [done|].
    rewrite enqueue_eq. simpl.
    destruct (contains _ _); by split_and!.
  - by split_and!.
Qed.

(** C10: [registerInternalDispatchTargetCandidate] returns the name of the
    dispatch function of the arity of the function,
    [dispatch_internal_in_<in>_out_<out>], whichever branch it takes; this
    includes the branch in which the arity stays without a confirmed
    dispatch. *)
Theorem registerCandidate_returns_dispatcher_name
    (p : N) (ft : FunctionType) (ctx : IRGenerationContext) :
  fd_callable (functionAt p) = Some ft →
  m_internalDispatchMap ctx !! functionArityOfType ft = None ∨
  m_internalDispatchTargetCandidates ctx !! functionArityOfType ft = None →
  ∃ ctx',
    registerInternalDispatchTargetCandidate functionAt p ctx
      = Ok ("dispatch_internal_in_"
              +:+ to_string (parameterTypes_sizeOnStack ft)
              +:+ "_out_"
              +:+ to_string (returnParameterTypes_sizeOnStack ft), ctx') ∧
    match m_internalDispatchMap ctx !! functionArityOfType ft with
    | Some _ => True
    | None => m_internalDispatchMap ctx' !! functionArityOfType ft = None
    end.
Proof.
  intros Hcallable Hinv.
  rewrite (registerInternalDispatchTargetCandidate_eq p ft) by done.
  eexists. split; [reflexivity|].
  by destruct (m_internalDispatchMap ctx !! functionArityOfType ft) eqn:Hd.
Qed.

(** ** The dispatch function *)

Lemma replace_ListSection parameters listParameters name body :
  replace parameters listParameters (ListSection name body) =
  match listParameters !! name with
  | Some elements =>
      foldr (λ element rest,
               result_append
                 (render (parameters ∪ element) listParameters body) rest)
            (Ok "") elements
  | None => AssertionFailed ("List parameter " +:+ name +:+ " not set.")
  end.
Proof.
  simpl. destruct (listParameters !! name) as [elements|]; [|done].
  assert (∀ element,
    (fix items (ts : list Template) : result string :=
       match ts with
       | [] => Ok ""
       | t :: ts =>
           result_append (replace (parameters ∪ element) listParameters t)
             (items ts)
       end) body
    = render (parameters ∪ element) listParameters body) as Hitems.
  { intros element. induction body as [|t body IHb]; [done|].
    simpl. f_equal. apply IHb. }
  induction elements as [|element elements IH]; simpl; [done|].
  by rewrite IH, Hitems.
Qed.

Lemma render_caseBody outs op arrow ins comma funName funID name lists :
  render (templateParameters outs op arrow ins comma funName
            ∪ caseParameters funID name) lists caseBody
  = Ok (caseBranch outs op ins funID name).
Proof. reflexivity. Qed.

Lemma append_assoc (a b c : string) : (a +:+ b) +:+ c = a +:+ (b +:+ c).
Proof.
  induction a as [|x a IH]; [done|].
  change (String x ((a +:+ b) +:+ c) = String x (a +:+ (b +:+ c))).
  by rewrite IH.
Qed.

Lemma foldr_append_end (branches : list string) (rest : string) :
  foldr String.append "" branches +:+ rest = foldr String.append rest branches.
Proof.
  induction branches as [|b branches IH]; [done|].
  cbn [foldr]. by rewrite append_assoc, IH.
Qed.

Lemma render_cases outs op arrow ins comma funName lists
    (cases : list (string * string)) :
  foldr (λ element rest,
           result_append
             (render (templateParameters outs op arrow ins comma funName
                        ∪ element) lists caseBody) rest)
        (Ok "") (map (λ c, caseParameters c.1 c.2) cases)
  = Ok (foldr String.append ""
          (map (λ c, caseBranch outs op ins c.1 c.2) cases)).
Proof.
  induction cases as [|[funID name] cases IH]; [done|].
  cbn [map foldr fst snd]. rewrite IH. by rewrite render_caseBody.
Qed.

Lemma render_dispatchTemplate outs op arrow ins comma funName
    (cases : list (string * string)) :
  render (templateParameters outs op arrow ins comma funName)
    {[ "cases" := map (λ c, caseParameters c.1 c.2) cases ]} dispatchTemplate
  = Ok (dispatchFunctionText funName comma ins arrow outs
          (map (λ c, caseBranch outs op ins c.1 c.2) cases)).
Proof.
  unfold dispatchTemplate, dispatchFunctionText. cbn [render].
  rewrite replace_ListSection, lookup_singleton_eq.
  fold caseBody. rewrite render_cases.
  rewrite <- (foldr_append_end _ defaultBranch).
  reflexivity.
Qed.

Lemma length_suffixedNames base start count :
  length (suffixedNames base start count) = count.
Proof.
  revert start. induction count as [|count IH]; intros start; simpl; [done|].
  by rewrite IH.
Qed.

Lemma suffixedVariableNameList_from_0 base (n : N) :
  suffixedVariableNameList base 0 n
  = String.concat ", " (suffixedNames base 0 (N.to_nat n)).
Proof.
  unfold suffixedVariableNameList.
  destruct (N.ltb_spec 0 n) as [Hpos|Hzero].
  - by rewrite N.sub_0_r.
  - assert (n = 0%N) as -> by lia. done.
Qed.

Lemma dispatchParameters_eq funName (a : Arity) :
  dispatchParameters funName a =
  templateParameters (String.concat ", " (outNames a))
    (if (0 <? ar_out a)%N then ":=" else "")
    (if (0 <? ar_out a)%N then "->" else "")
    (String.concat ", " (inNames a))
    (if (0 <? ar_in a)%N then "," else "")
    funName.
Proof.
  unfold dispatchParameters, templateParameters, inNames, outNames.
  by rewrite !suffixedVariableNameList_from_0.
Qed.

Lemma functionArity_dispatchable (a : Arity) (p : N) ctx :
  dispatchable functionAt a p → functionArity functionAt p ctx = Ok (a, ctx).
Proof.
  intros (_ & Harity & _). unfold functionArity.
  destruct (fd_callable (functionAt p)); by simplify_eq/=.
Qed.

(** The loop of [internalDispatch] passes its assertions on functions that
    can be dispatched, and collects the identifier and the name of each. *)
Lemma dispatchCases_dispatchable (a : Arity) (ps : list N) ctx :
  Forall (dispatchable functionAt a) ps →
  dispatchCases functionAt a ps ctx
  = Ok (map (λ c, caseParameters c.1 c.2)
          (map (λ p, (to_string (fd_id (functionAt p)),
                      functionName (functionAt p))) ps), ctx).
Proof.
  induction 1 as [|p ps Hp Hps IH]; [done|].
  cbn [dispatchCases map]. cbv [bind solAssert pure] in *.
  pose proof (functionArity_dispatchable a p ctx Hp) as Harity.
  destruct Hp as (Hnull & _ & Hctor & Hid).
  rewrite (bool_decide_eq_false_2 _ Hnull). cbn [negb].
  rewrite Harity, (bool_decide_eq_true_2 _ eq_refl).
  rewrite Hctor, (bool_decide_eq_false_2 _ Hid). cbn [negb].
  by rewrite IH.
Qed.

Lemma internalDispatch_eq (fs : gset N) (a : Arity) ctx :
  fs ≠ ∅ →
  (∀ p, p ∈ fs → dispatchable functionAt a p) →
  internalDispatch functionAt fs ctx =
  match m_functions ctx !! internalDispatchFunctionName a with
  | Some fragment => Ok (fragment, ctx)
  | None =>
      Ok (dispatcherOf functionAt a (std_set_elements by_address fs),
          set_functions
            (<[internalDispatchFunctionName a :=
                 dispatcherOf functionAt a (std_set_elements by_address fs)]>)
            ctx)
  end.
Proof.
  intros Hne Hall. unfold internalDispatch.
  assert (Forall (dispatchable functionAt a) (std_set_elements by_address fs))
    as Hforall.
  { apply Forall_forall. intros p Hp. apply Hall.
    by apply elem_of_std_set_elements in Hp. }
  pose proof (dispatchCases_dispatchable a _ ctx Hforall) as Hcases.
  destruct (std_set_elements by_address fs) as [|first rest] eqn:Hlist.
  { exfalso. apply Hne. by apply (std_set_begin_None by_address); rewrite Hlist. }
  pose proof (functionArity_dispatchable a first ctx
                (Forall_inv Hforall)) as Hfirst.
  cbv [bind solAssert pure] in *.
  rewrite (bool_decide_eq_false_2 _ Hne). cbn [negb head default].
  change (id first) with first. rewrite Hfirst, Hcases.
  unfold createFunction.
  destruct (m_functions ctx !! internalDispatchFunctionName a); [done|].
  rewrite dispatchParameters_eq, render_dispatchTemplate.
  unfold dispatcherOf, caseBranchOf. by rewrite map_map.
Qed.

(** C5: given a non-empty set of functions of one arity, none of them a
    constructor and none with identifier 0, [internalDispatch] renders a
    dispatch function with one case for each function of the set (its
    identifier, and the call of the function with as many arguments and
    results as the arity says), followed by one default branch that is
    [invalid()], and stores it under the name of the dispatch function.  A
    later request for that name, for whatever set of functions of the arity,
    returns the stored fragment and changes nothing. *)
Theorem internalDispatch_renders_one_case_per_function
    (fs : gset N) (a : Arity) (ctx : IRGenerationContext) :
  fs ≠ ∅ →
  (∀ p, p ∈ fs → dispatchable functionAt a p) →
  m_functions ctx !! internalDispatchFunctionName a = None →
  let functions := std_set_elements by_address fs in
  let branches := map (caseBranchOf functionAt a) functions in
  let fragment :=
    dispatchFunctionText (internalDispatchFunctionName a)
      (if (0 <? ar_in a)%N then "," else "")
      (String.concat ", " (inNames a))
      (if (0 <? ar_out a)%N then "->" else "")
      (String.concat ", " (outNames a))
      branches in
  length branches = size fs ∧
  NoDup functions ∧
  (∀ p, p ∈ fs ↔ p ∈ functions) ∧
  length (inNames a) = N.to_nat (ar_in a) ∧
  length (outNames a) = N.to_nat (ar_out a) ∧
  internalDispatch functionAt fs ctx
    = Ok (fragment,
          set_functions (<[internalDispatchFunctionName a := fragment]>) ctx) ∧
  ∀ fs' ctx',
    fs' ≠ ∅ →
    (∀ p, p ∈ fs' → dispatchable functionAt a p) →
    m_functions ctx' !! internalDispatchFunctionName a = Some fragment →
    internalDispatch functionAt fs' ctx' = Ok (fragment, ctx').
Proof.
  intros Hne Hall Hfresh functions branches fragment.
  split_and!.
  - unfold branches, functions.
    by rewrite length_map, length_std_set_elements.
  - apply NoDup_std_set_elements.
  - intros p. symmetry. apply elem_of_std_set_elements.
  - apply length_suffixedNames.
  - apply length_suffixedNames.
  - rewrite (internalDispatch_eq fs a) by done. by rewrite Hfresh.
  - intros fs' ctx' Hne' Hall' Hstored.
    rewrite (internalDispatch_eq fs' a) by done. by rewrite Hstored.
Qed.

(** ** The invariant is kept *)

Lemma dispatch_invariant_emptyContext : dispatch_invariant emptyContext.
Proof. intros a. left. apply lookup_empty. Qed.

(** On a state that satisfies the invariant, [registerInternalDispatch]
    does not fail and the invariant holds afterwards. *)
Lemma registerInternalDispatch_invariant (a : Arity) ctx :
  dispatch_invariant ctx →
  ∃ ctx', registerInternalDispatch functionAt a ctx
            = Ok (internalDispatchFunctionName a, ctx') ∧
          dispatch_invariant ctx'.
Proof.
  intros Hinv. rewrite registerInternalDispatch_eq by apply Hinv.
  eexists. split; [reflexivity|].
  destruct (m_internalDispatchMap ctx !! a) eqn:Hd; [done|].
  intros b. simpl. destruct (decide (a = b)) as [<-|Hne].
  - right. apply lookup_delete_eq.
  - rewrite lookup_insert_ne, lookup_delete_ne by done. apply Hinv.
Qed.

(** The same for [registerInternalDispatchTargetCandidate], for a function
    with a callable type. *)
Lemma registerInternalDispatchTargetCandidate_invariant (p : N) ft ctx :
  fd_callable (functionAt p) = Some ft →
  dispatch_invariant ctx →
  ∃ ctx', registerInternalDispatchTargetCandidate functionAt p ctx
            = Ok (internalDispatchFunctionName (functionArityOfType ft), ctx') ∧
          dispatch_invariant ctx'.
Proof.
  intros Hcallable Hinv.
  rewrite (registerInternalDispatchTargetCandidate_eq p ft) by (done || apply Hinv).
  eexists. split; [reflexivity|].
  destruct (m_internalDispatchMap ctx !! functionArityOfType ft) eqn:Hd.
  - assert (m_internalDispatchTargetCandidates ctx !! functionArityOfType ft
            = None) as Hc by (destruct (Hinv (functionArityOfType ft)); congruence).
    intros b. destruct (contains _ _); simpl;
      (destruct (decide (functionArityOfType ft = b)) as [<-|Hne];
       [by right|rewrite lookup_insert_ne by done; apply Hinv]).
  - intros b. simpl.
    destruct (decide (functionArityOfType ft = b)) as [<-|Hne]; [by left|].
    rewrite lookup_insert_ne by done. apply Hinv.
Qed.

Lemma enqueue_invariant (p : N) ctx :
  dispatch_invariant ctx →
  ∃ ctx', enqueue p ctx = Ok (functionName (functionAt p), ctx') ∧
          dispatch_invariant ctx'.
Proof.
  intros Hinv. rewrite enqueue_eq. eexists. split; [reflexivity|].
  by destruct (contains _ _).
Qed.

End Properties.

(** * The sample compilation unit *)

(** The sample states are reached from the empty context. *)
Example sample_withCandidates_reached :
  outcome_state
    (bind (registerInternalDispatchTargetCandidate Sample.functionAt 1)
       (λ _, registerInternalDispatchTargetCandidate Sample.functionAt 2)
       emptyContext)
  = Some Sample.withCandidates.
Proof. vm_compute. reflexivity. Qed.

Example sample_withPending_reached :
  outcome_state
    (bind (enqueueFunctionForCodeGeneration Sample.functionAt 1)
       (λ _, enqueueFunctionForCodeGeneration Sample.functionAt 2)
       emptyContext)
  = Some Sample.withPending.
Proof. vm_compute. reflexivity. Qed.

(** The scenario of two functions behind one dispatch: both are candidates,
    the dispatch is requested, both are generated in turn, and the dispatch
    map that is consumed holds both. *)
Example sample_dispatch_scenario :
  outcome_value
    (bind (registerInternalDispatchTargetCandidate Sample.functionAt 1) (λ _,
     bind (registerInternalDispatchTargetCandidate Sample.functionAt 2) (λ _,
     bind (registerInternalDispatch Sample.functionAt Sample.arity11) (λ _,
     bind (dequeueFunctionForCodeGeneration by_address) (λ first,
     bind (dequeueFunctionForCodeGeneration by_address) (λ second,
     bind consumeInternalDispatchMap (λ dispatch,
     pure (first, second, dispatch !! Sample.arity11)))))))
       emptyContext)
  = Some (1%N, 2%N, Some {[ 1%N; 2%N ]}).
Proof. vm_compute. reflexivity. Qed.

(** The dispatch function rendered for the two sample functions has two
    cases and one default branch. *)
Example sample_dispatcher_branches :
  let fragment :=
    default "" (outcome_value
      (internalDispatch Sample.functionAt {[ 1%N; 2%N ]} emptyContext)) in
  occurrences "case " fragment = 2 ∧
  occurrences "default " fragment = 1 ∧
  occurrences "invalid()" fragment = 1 ∧
  occurrences "out_0 := fun_A_7(in_0)" fragment = 1 ∧
  occurrences "out_0 := fun_B_5(in_0)" fragment = 1.
Proof. vm_compute. by split_and!. Qed.

(** The counterexample to C4 as stated: with the pending set ordered by
    address, the first function dequeued is [A] at address 1, whose
    identifier 7 is larger than the identifier 5 of [B], which is pending
    too. *)
Lemma dequeue_not_least_identifier :
  ∃ p ctx',
    dequeueFunctionForCodeGeneration by_address Sample.withPending
      = Ok (p, ctx') ∧
    ¬ (∀ q, q ∈ m_functionGenerationQueue Sample.withPending →
            (fd_id (Sample.functionAt p) ≤ fd_id (Sample.functionAt q))%Z).
Proof.
  exists 1%N, (set_queue (λ _, {[ 2%N ]}) emptyContext). split.
  - vm_compute. reflexivity.
  - intros Hleast. specialize (Hleast 2%N). simpl in Hleast.
    assert (2%N ∈ ({[ 1%N; 2%N ]} : gset N)) as Hin
      by (apply elem_of_union; right; by apply elem_of_singleton).
    apply Hleast in Hin. lia.
Qed.

Lemma registerDispatch_promotes_candidates_witness :
  m_internalDispatchMap Sample.withCandidates !! Sample.arity11 = None ∧
  m_internalDispatchTargetCandidates Sample.withCandidates !! Sample.arity11
    = Some {[ 1%N; 2%N ]} ∧
  ∃ ctx',
    registerInternalDispatch Sample.functionAt Sample.arity11
      Sample.withCandidates
      = Ok (internalDispatchFunctionName Sample.arity11, ctx') ∧
    m_internalDispatchMap ctx'
      = <[Sample.arity11 := {[ 1%N; 2%N ]}]>
          (m_internalDispatchMap Sample.withCandidates) ∧
    m_internalDispatchTargetCandidates ctx'
      = delete Sample.arity11
          (m_internalDispatchTargetCandidates Sample.withCandidates) ∧
    for_each (std_set_elements by_address {[ 1%N; 2%N ]})
      (λ function,
         bind (enqueueFunctionForCodeGeneration Sample.functionAt function)
              (λ _, pure tt))
      (set_candidates (delete Sample.arity11)
         (set_dispatch (<[Sample.arity11 := {[ 1%N; 2%N ]}]>)
            Sample.withCandidates))
      = Ok (tt, ctx') ∧
    m_functionGenerationQueue ctx'
      = m_functionGenerationQueue Sample.withCandidates
        ∪ filter (not_generated Sample.functionAt Sample.withCandidates)
            {[ 1%N; 2%N ]} ∧
    m_functions ctx' = m_functions Sample.withCandidates ∧
    m_localVariables ctx' = m_localVariables Sample.withCandidates ∧
    registerInternalDispatch Sample.functionAt Sample.arity11 ctx'
      = Ok (internalDispatchFunctionName Sample.arity11, ctx').
Proof.
  split; [reflexivity|]. split; [reflexivity|].
  apply (registerDispatch_promotes_candidates Sample.functionAt
           Sample.arity11 {[ 1%N; 2%N ]} Sample.withCandidates);
    reflexivity.
Defined.

Lemma registerDispatch_without_candidates_witness :
  m_internalDispatchMap emptyContext !! Sample.arity11 = None ∧
  m_internalDispatchTargetCandidates emptyContext !! Sample.arity11 = None ∧
  registerInternalDispatch Sample.functionAt Sample.arity11 emptyContext
    = Ok (internalDispatchFunctionName Sample.arity11,
          set_dispatch (<[Sample.arity11 := ∅]>) emptyContext) ∧
  m_functionGenerationQueue
    (set_dispatch (<[Sample.arity11 := ∅]>) emptyContext)
    = m_functionGenerationQueue emptyContext ∧
  m_internalDispatchMap (set_dispatch (<[Sample.arity11 := ∅]>) emptyContext)
    !! Sample.arity11 = Some ∅ ∧
  failed (consumeInternalDispatchMap
            (set_dispatch (<[Sample.arity11 := ∅]>) emptyContext)).
Proof.
  split; [reflexivity|]. split; [reflexivity|].
  apply (registerDispatch_without_candidates Sample.functionAt
           Sample.arity11 emptyContext); reflexivity.
Defined.

Lemma registerCandidate_by_state_witness :
  fd_callable (Sample.functionAt 2) = Some Sample.oneToOne ∧
  (m_internalDispatchMap Sample.withConfirmed
     !! functionArityOfType Sample.oneToOne = None ∨
   m_internalDispatchTargetCandidates Sample.withConfirmed
     !! functionArityOfType Sample.oneToOne = None) ∧
  ∃ ctx',
    registerInternalDispatchTargetCandidate Sample.functionAt 2
      Sample.withConfirmed
      = Ok (internalDispatchFunctionName Sample.arity11, ctx') ∧
    m_internalDispatchMap ctx' !! Sample.arity11 = Some {[ 2%N; 1%N ]} ∧
    m_internalDispatchTargetCandidates ctx' !! Sample.arity11 = None ∧
    m_functionGenerationQueue ctx' = {[ 2%N ]}.
Proof.
  split; [reflexivity|]. split; [right; reflexivity|].
  destruct (registerCandidate_by_state Sample.functionAt 2 Sample.oneToOne
              Sample.withConfirmed eq_refl (or_intror eq_refl))
    as (ctx' & Hrun & _ & _ & Hbranch).
  exists ctx'. split; [exact Hrun|].
  change (m_internalDispatchMap Sample.withConfirmed
            !! functionArityOfType Sample.oneToOne)
    with (Some ({[ 1%N ]} : gset N)) in Hbranch.
  destruct Hbranch as (Hmap & _ & Hnone & _ & Hqueue).
  split; [|split].
  - rewrite Hmap. reflexivity.
  - exact Hnone.
  - rewrite Hqueue. reflexivity.
Defined.

Lemma registerCandidate_returns_dispatcher_name_witness :
  fd_callable (Sample.functionAt 1) = Some Sample.oneToOne ∧
  (m_internalDispatchMap Sample.withCandidates
     !! functionArityOfType Sample.oneToOne = None ∨
   m_internalDispatchTargetCandidates Sample.withCandidates
     !! functionArityOfType Sample.oneToOne = None) ∧
  ∃ ctx',
    registerInternalDispatchTargetCandidate Sample.functionAt 1
      Sample.withCandidates
      = Ok ("dispatch_internal_in_1_out_1", ctx') ∧
    m_internalDispatchMap ctx' !! Sample.arity11 = None.
Proof.
  split; [reflexivity|]. split; [left; reflexivity|].
  exact (registerCandidate_returns_dispatcher_name Sample.functionAt 1
           Sample.oneToOne Sample.withCandidates eq_refl (or_introl eq_refl)).
Defined.

Lemma sample_dispatchable (p : N) :
  p ∈ ({[ 1%N; 2%N ]} : gset N) →
  dispatchable Sample.functionAt Sample.arity11 p.
Proof.
  intros Hp. apply elem_of_union in Hp as [Hp|Hp];
    apply elem_of_singleton in Hp; subst p; by repeat split.
Qed.

Lemma sample_functions_nonempty : ({[ 1%N; 2%N ]} : gset N) ≠ ∅.
Proof.
  intros Hempty.
  assert (1%N ∈ (∅ : gset N)) as Hin
    by (rewrite <- Hempty; apply elem_of_union; left; by apply elem_of_singleton).
  by apply elem_of_empty in Hin.
Qed.

Lemma internalDispatch_renders_one_case_per_function_witness :
  ({[ 1%N; 2%N ]} : gset N) ≠ ∅ ∧
  (∀ p, p ∈ ({[ 1%N; 2%N ]} : gset N) →
        dispatchable Sample.functionAt Sample.arity11 p) ∧
  m_functions emptyContext !! internalDispatchFunctionName Sample.arity11
    = None ∧
  ∃ fragment,
    internalDispatch Sample.functionAt {[ 1%N; 2%N ]} emptyContext
      = Ok (fragment,
            set_functions
              (<[internalDispatchFunctionName Sample.arity11 := fragment]>)
              emptyContext) ∧
    fragment =
      dispatchFunctionText "dispatch_internal_in_1_out_1" "," "in_0" "->" "out_0"
        [ caseBranch "out_0" ":=" "in_0" "7" "fun_A_7";
          caseBranch "out_0" ":=" "in_0" "5" "fun_B_5" ].
Proof.
  split; [exact sample_functions_nonempty|].
  split; [exact sample_dispatchable|].
  split; [reflexivity|].
  eexists. split.
  - exact (proj1 (proj2 (proj2 (proj2 (proj2 (proj2
      (internalDispatch_renders_one_case_per_function Sample.functionAt
         {[ 1%N; 2%N ]} Sample.arity11 emptyContext
         sample_functions_nonempty sample_dispatchable eq_refl))))))).
  - vm_compute. reflexivity.
Defined.

Lemma names_injective_in_identifier_witness :
  (fd_id (Sample.functionAt 1) ≠ fd_id (Sample.functionAt 2) ∧
   functionName (Sample.functionAt 1) ≠ functionName (Sample.functionAt 2)) ∧
  (vd_id (Sample.variableAt 1) ≠ vd_id (Sample.variableAt 2) ∧
   getterFunctionName (Sample.variableAt 1)
     ≠ getterFunctionName (Sample.variableAt 2)).
Proof.
  pose proof (names_injective_in_identifier
                (Sample.functionAt 1) (Sample.functionAt 2)
                (Sample.variableAt 1) (Sample.variableAt 2)) as [Hf Hv].
  assert (fd_id (Sample.functionAt 1) ≠ fd_id (Sample.functionAt 2)) as Hfid
    by (simpl; lia).
  assert (vd_id (Sample.variableAt 1) ≠ vd_id (Sample.variableAt 2)) as Hvid
    by (simpl; lia).
  split; split; auto.
Defined.

(** * Further properties *)

(** ** Names *)

Lemma occurs_deployed_digit c : occurs c "deployed" → ¬ (is_digit c ∨ c = "-"%char).
Proof.
  unfold is_digit. simpl.
  intros [->|[->|[->|[->|[->|[->|[->|[->|[]]]]]]]]]; vm_compute;
    intros [?|?]; (lia || discriminate).
Qed.

Lemma underscore_not_in_to_string_N (n : N) : ¬ occurs "_"%char (to_string n).
Proof.
  intros Hocc. apply occurs_to_string_N in Hocc.
  unfold is_digit in Hocc. vm_compute in Hocc. lia.
Qed.

Lemma underscore_not_in_deployed : ¬ occurs "_"%char "deployed".
Proof. simpl. intros H. repeat (destruct H as [H|H]; [discriminate|]). done. Qed.

Lemma underscore_not_in_out : ¬ occurs "_"%char "out".
Proof. simpl. intros H. repeat (destruct H as [H|H]; [discriminate|]). done. Qed.

(** X1: the name of the runtime object of a contract is the name of its
    creation object followed by [_deployed]; no creation object name is the
    runtime object name of any contract; and contracts with different
    identifiers have different creation object names and different runtime
    object names, whatever their names are. *)
Theorem object_names_distinct (c d : ContractDefinition) :
  runtimeObjectName c = creationObjectName c +:+ "_deployed" ∧
  creationObjectName c ≠ runtimeObjectName d ∧
  (cd_id c ≠ cd_id d → creationObjectName c ≠ creationObjectName d) ∧
  (cd_id c ≠ cd_id d → runtimeObjectName c ≠ runtimeObjectName d).
Proof.
  unfold runtimeObjectName, creationObjectName.
  assert (∀ e : ContractDefinition,
    cd_name e +:+ "_" +:+ to_string (cd_id e) +:+ "_deployed"
    = (cd_name e +:+ "_" +:+ to_string (cd_id e)) +:+ String "_" "deployed")
    as Hassoc.
  { intros e. by rewrite !append_assoc. }
  split_and!.
  - by rewrite !append_assoc.
  - rewrite Hassoc. intros Heq.
    apply split_at_last in Heq as [_ Heq];
      [|apply underscore_not_in_to_string_Z|apply underscore_not_in_deployed].
    assert (occurs "d"%char (to_string (cd_id c))) as Hocc
      by (rewrite Heq; simpl; auto).
    apply occurs_to_string_Z in Hocc.
    by apply (occurs_deployed_digit "d"%char); [simpl; auto|].
  - intros Hid Heq. apply Hid.
    apply split_at_last in Heq as [_ Heq];
      auto using underscore_not_in_to_string_Z.
    by apply (inj to_string).
  - intros Hid Heq. apply Hid. rewrite !Hassoc in Heq.
    apply split_at_last in Heq as [Heq _];
      auto using underscore_not_in_deployed.
    apply split_at_last in Heq as [_ Heq];
      auto using underscore_not_in_to_string_Z.
    by apply (inj to_string).
Qed.

(** X2: different arities have different dispatch function names. *)
Theorem internalDispatchFunctionName_injective (a b : Arity) :
  a ≠ b → internalDispatchFunctionName a ≠ internalDispatchFunctionName b.
Proof.
  unfold internalDispatchFunctionName. intros Hne Heq. apply Hne.
  simpl in Heq. simplify_eq.
  assert (∀ i o : N,
    to_string i +:+ "_out_" +:+ to_string o
    = (to_string i +:+ String "_" "out") +:+ String "_" (to_string o))
    as Hassoc.
  { intros i o. by rewrite append_assoc. }
  rewrite !Hassoc in Heq.
  apply split_at_last in Heq as [Hin Hout];
    auto using underscore_not_in_to_string_N.
  apply split_at_last in Hin as [Hin _]; auto using underscore_not_in_out.
  apply (inj to_string) in Hin, Hout.
  destruct a, b; simpl in *; by subst.
Qed.

(** X3: [trySuccessConditionVariable] fails exactly on an expression
    without the [tryCall] annotation, and expressions with different
    identifiers get different names. *)
Theorem trySuccessConditionVariable_names (e e' : Expression) :
  (failed (trySuccessConditionVariable e) ↔ ex_tryCall e = false) ∧
  (ex_tryCall e = true → ex_tryCall e' = true → ex_id e ≠ ex_id e' →
   trySuccessConditionVariable e ≠ trySuccessConditionVariable e').
Proof.
  unfold trySuccessConditionVariable. split.
  - destruct (ex_tryCall e); simpl; split; (done || discriminate).
  - intros -> -> Hid Heq. apply Hid.
    injection Heq as Heq. simpl in Heq. by simplify_eq.
Qed.

(** X4: a function name, a getter name, a dispatch function name, a Yul
    variable name and a try success condition name are never equal to one
    another: the five kinds of names this file hands out do not overlap. *)
Theorem name_kinds_disjoint (f : FunctionDefinition) (v : VariableDeclaration)
    (a : Arity) (e : Expression) (counterModulus : N) (members : OtherMembers) :
  NoDup [ functionName f; getterFunctionName v; internalDispatchFunctionName a;
          (newYulVariable counterModulus members).1;
          "trySuccessCondition_" +:+ to_string (ex_id e) ].
Proof.
  unfold functionName, getterFunctionName, internalDispatchFunctionName,
    newYulVariable. cbn [fst].
  repeat (apply NoDup_cons; split;
          [rewrite ?not_elem_of_cons; repeat split;
             (by intros [=]) || apply not_elem_of_nil|]).
  apply NoDup_nil_2.
Qed.

(** ** Yul variables *)

Lemma wrapped_sum_injective (modulus base i j : N) :
  (i < modulus)%N → (j < modulus)%N →
  ((base + i) mod modulus = (base + j) mod modulus)%N → i = j.
Proof.
  intros Hi Hj Heq.
  assert (modulus ≠ 0%N) as Hpos by lia.
  pose proof (N.div_mod (base + i) modulus Hpos) as Hdi.
  pose proof (N.div_mod (base + j) modulus Hpos) as Hdj.
  rewrite Heq in Hdi.
  set (qi := ((base + i) / modulus)%N) in *.
  set (qj := ((base + j) / modulus)%N) in *.
  set (r := ((base + j) mod modulus)%N) in *.
  destruct (N.lt_trichotomy qi qj) as [Hlt|[Heqq|Hgt]]; [nia|..|nia].
  rewrite Heqq in Hdi. lia.
Qed.

(** The names of a number of calls in a row, in closed form. *)
Lemma newYulVariables_names (modulus : N) (k : nat) (members : OtherMembers) :
  (newYulVariables modulus k members).1
  = map (λ i, "_" +:+ to_string
                ((m_varCounter members + 1 + N.of_nat i) mod modulus)%N)
        (seq 0 k).
Proof.
  revert members. induction k as [|k IH]; intros members; [done|].
  cbn [newYulVariables]. unfold newYulVariable at 1.
  destruct (newYulVariables modulus k _) as [names members'] eqn:Hrest.
  pose proof (IH {| m_mostDerivedContract := m_mostDerivedContract members;
                    m_stateVariables := m_stateVariables members;
                    m_varCounter :=
                      ((m_varCounter members + 1) mod modulus)%N |}) as Hnames.
  rewrite Hrest in Hnames. cbn [fst m_varCounter] in *.
  cbn [seq map]. f_equal.
  - by rewrite N.add_0_r.
  - rewrite Hnames, <- seq_shift, map_map. apply map_ext. intros i.
    do 2 f_equal.
    destruct (decide (modulus = 0%N)) as [->|Hpos].
    + rewrite !N.mod_0_r. lia.
    + rewrite <- N.add_assoc, N.Div0.add_mod_idemp_l. f_equal. lia.
Qed.

(** X5: the names that [newYulVariable] returns in a run of calls are
    pairwise different, as long as the run is not longer than the number of
    values of the counter. *)
Theorem newYulVariable_names_distinct
    (counterModulus : N) (k : nat) (members : OtherMembers) :
  (N.of_nat k ≤ counterModulus)%N →
  NoDup (newYulVariables counterModulus k members).1.
Proof.
  intros Hk. rewrite newYulVariables_names.
  apply NoDup_fmap_2_strong; [|apply NoDup_seq].
  intros i j Hi Hj Heq.
  apply elem_of_seq in Hi, Hj.
  injection Heq as Heq. apply to_string_N_inj in Heq.
  apply wrapped_sum_injective in Heq; lia.
Qed.

Lemma newYulVariable_names_distinct_witness :
  (N.of_nat 3 ≤ 4)%N ∧
  NoDup (newYulVariables 4 3
           {| m_mostDerivedContract := 0; m_stateVariables := ∅;
              m_varCounter := 2 |}).1 ∧
  (newYulVariables 4 3
     {| m_mostDerivedContract := 0; m_stateVariables := ∅;
        m_varCounter := 2 |}).1 = ["_3"; "_0"; "_1"].
Proof.
  split; [lia|]. split.
  - apply (newYulVariable_names_distinct 4 3). lia.
  - vm_compute. reflexivity.
Defined.

Lemma std_set_elements_empty_L key : std_set_elements key ∅ = [].
Proof.
  apply length_zero_iff_nil. by rewrite length_std_set_elements, size_empty.
Qed.

Section FurtherProperties.

Variable functionAt : N → FunctionDefinition.

Abbreviation enqueue := (enqueueFunctionForCodeGeneration functionAt).
Abbreviation queue := m_functionGenerationQueue.

(** ** The dispatch function: when it is rendered *)

Lemma functionArity_Ok (p : N) (a : Arity) ctx ctx' :
  functionArity functionAt p ctx = Ok (a, ctx') →
  functionArityOfType <$> fd_callable (functionAt p) = Some a ∧ ctx' = ctx.
Proof.
  unfold functionArity, pure.
  destruct (fd_callable (functionAt p)); [|discriminate].
  by intros [= <- <-].
Qed.

(** The loop of [internalDispatch] passes only on functions that can be
    dispatched, and leaves the state as it is. *)
Lemma dispatchCases_Ok (a : Arity) (ps : list N) ctx cases ctx' :
  dispatchCases functionAt a ps ctx = Ok (cases, ctx') →
  Forall (dispatchable functionAt a) ps ∧ ctx' = ctx.
Proof.
  revert cases ctx'. induction ps as [|p ps IH]; intros cases ctx'.
  - cbn [dispatchCases]. unfold pure. by intros [= <- <-].
  - cbn [dispatchCases]. cbv [bind solAssert pure].
    case_bool_decide as Hnull; cbn [negb]; [discriminate|].
    destruct (functionArity functionAt p ctx) as [[a' c]|] eqn:Harity;
      [|discriminate].
    apply functionArity_Ok in Harity as [Harity ->].
    case_bool_decide as Hsame; [subst a'|discriminate].
    destruct (fd_isConstructor (functionAt p)) eqn:Hctor;
      cbn [negb]; [discriminate|].
    case_bool_decide as Hid; cbn [negb]; [discriminate|].
    destruct (dispatchCases functionAt a ps ctx) as [[rest c]|] eqn:Hrest;
      [|discriminate].
    destruct (IH _ _ eq_refl) as [Hps ->]. intros [= <- <-].
    split; [|done]. by constructor.
Qed.

Lemma internalDispatch_Ok (fs : gset N) ctx r :
  internalDispatch functionAt fs ctx = Ok r →
  fs ≠ ∅ ∧ ∃ a, ∀ p, p ∈ fs → dispatchable functionAt a p.
Proof.
  unfold internalDispatch. cbv [bind solAssert pure].
  case_bool_decide as Hempty; cbn [negb]; [discriminate|].
  split; [done|].
  destruct (functionArity functionAt _ ctx) as [[a c]|] eqn:Harity;
    [|discriminate].
  apply functionArity_Ok in Harity as [_ ->].
  destruct (dispatchCases functionAt a _ ctx) as [[cases c]|] eqn:Hcases;
    [|discriminate].
  apply dispatchCases_Ok in Hcases as [Hall _].
  exists a. intros p Hp. rewrite Forall_forall in Hall. apply Hall.
  by apply elem_of_std_set_elements.
Qed.


Lemma functionName_not_dispatch_name (f : FunctionDefinition) (a : Arity) :
  functionName f ≠ internalDispatchFunctionName a.
Proof. unfold functionName, internalDispatchFunctionName. by intros [=]. Qed.

(** X7: a call of [internalDispatch] that returns changes nothing but the
    registry entry of the dispatch function: what is pending, the local
    variables and both dispatch maps stay, and no function becomes generated
    by it. *)
Theorem internalDispatch_touches_only_its_entry
    (fs : gset N) (ctx ctx' : IRGenerationContext) (fragment : string) :
  internalDispatch functionAt fs ctx = Ok (fragment, ctx') →
  ∃ a,
    (∀ p, p ∈ fs → dispatchable functionAt a p) ∧
    m_functions ctx' !! internalDispatchFunctionName a = Some fragment ∧
    (∀ name, name ≠ internalDispatchFunctionName a →
             m_functions ctx' !! name = m_functions ctx !! name) ∧
    (∀ p, not_generated functionAt ctx' p ↔ not_generated functionAt ctx p) ∧
    queue ctx' = queue ctx ∧
    m_localVariables ctx' = m_localVariables ctx ∧
    m_internalDispatchMap ctx' = m_internalDispatchMap ctx ∧
    m_internalDispatchTargetCandidates ctx'
      = m_internalDispatchTargetCandidates ctx.
Proof.
  intros Hrun. pose proof Hrun as Hok.
  apply internalDispatch_Ok in Hok as (Hne & a & Hall).
  rewrite (internalDispatch_eq functionAt fs a) in Hrun by done.
  exists a. split; [done|].
  destruct (m_functions ctx !! internalDispatchFunctionName a)
    as [stored|] eqn:Hstored; injection Hrun as <- <-.
  - by split_and!.
  - assert (∀ name, name ≠ internalDispatchFunctionName a →
      m_functions (set_functions
        (<[internalDispatchFunctionName a :=
             dispatcherOf functionAt a (std_set_elements by_address fs)]>) ctx)
        !! name = m_functions ctx !! name) as Hother.
    { intros name Hname. simpl. by rewrite lookup_insert_ne. }
    split_and!; try done.
    + simpl. apply lookup_insert_eq.
    + intros p. unfold not_generated.
      by rewrite Hother by apply functionName_not_dispatch_name.
Qed.

(** ** The two phases of the dispatch registry *)

Lemma not_generated_filter_insert (ctx : IRGenerationContext) (p : N)
    (pending candidates : gset N) :
  pending ∪ filter (not_generated functionAt ctx) ({[p]} ∪ candidates)
  = (if contains (m_functions ctx) (functionName (functionAt p))
     then pending ∪ filter (not_generated functionAt ctx) candidates
     else {[p]} ∪ (pending ∪ filter (not_generated functionAt ctx) candidates)).
Proof.
  destruct (contains _ _) eqn:Hgen.
  - assert (¬ not_generated functionAt ctx p) as Hp.
    { unfold not_generated. intros Hnone.
      apply contains_false in Hnone. congruence. }
    apply set_eq. intros x.
    rewrite !elem_of_union, !elem_of_filter, elem_of_union, elem_of_singleton.
    split; [|tauto]. intros [?|[Hx [->|?]]]; tauto.
  - apply contains_false in Hgen.
    apply set_eq. intros x.
    rewrite !elem_of_union, !elem_of_filter, !elem_of_union, elem_of_singleton.
    split; [tauto|]. intros [->|[?|?]]; tauto.
Qed.

(** X8: for a function and its arity, registering the function as a
    candidate and then requesting the dispatch of the arity ends in the same
    state as requesting the dispatch first and registering the function
    afterwards; neither order fails, and in the end the function and all
    functions registered for the arity before are confirmed. *)
Theorem registration_order_irrelevant
    (p : N) (ft : FunctionType) (ctx : IRGenerationContext) :
  fd_callable (functionAt p) = Some ft →
  m_internalDispatchMap ctx !! functionArityOfType ft = None ∨
  m_internalDispatchTargetCandidates ctx !! functionArityOfType ft = None →
  ∃ ctx',
    bind (registerInternalDispatchTargetCandidate functionAt p)
      (λ _, registerInternalDispatch functionAt (functionArityOfType ft)) ctx
      = Ok (internalDispatchFunctionName (functionArityOfType ft), ctx') ∧
    bind (registerInternalDispatch functionAt (functionArityOfType ft))
      (λ _, registerInternalDispatchTargetCandidate functionAt p) ctx
      = Ok (internalDispatchFunctionName (functionArityOfType ft), ctx') ∧
    m_internalDispatchMap ctx' !! functionArityOfType ft
      = Some ({[p]} ∪ registered ctx (functionArityOfType ft)) ∧
    m_internalDispatchTargetCandidates ctx' !! functionArityOfType ft = None.
Proof.
  intros Hcallable Hinv. set (a := functionArityOfType ft) in *.
  unfold bind, registered.
  rewrite (registerInternalDispatchTargetCandidate_eq functionAt p ft) by done.
  rewrite (registerInternalDispatch_eq functionAt a ctx) by done.
  fold a.
  destruct (m_internalDispatchMap ctx !! a) as [confirmed|] eqn:Hd.
  - destruct Hinv as [?|Hc]; [done|].
    rewrite (registerInternalDispatchTargetCandidate_eq functionAt p ft)
      by auto.
    fold a. rewrite Hd. cbn zeta.
    rewrite registerInternalDispatch_eq.
    2:{ right. by destruct (contains _ _). }
    assert (m_internalDispatchMap
              (if contains (m_functions ctx) (functionName (functionAt p))
               then set_dispatch (<[a := {[p]} ∪ confirmed]>) ctx
               else set_queue (λ q, {[p]} ∪ q)
                      (set_dispatch (<[a := {[p]} ∪ confirmed]>) ctx)) !! a
            = Some ({[p]} ∪ confirmed)) as Hd'
      by (destruct (contains _ _); apply lookup_insert_eq).
    rewrite Hd'. eexists. split; [reflexivity|]. split; [reflexivity|].
    unfold at_key. rewrite Hc, Hd. simpl. split.
    + rewrite Hd'. f_equal. by rewrite (right_id_L ∅ (∪)).
    + by destruct (contains _ _).
  - rewrite registerInternalDispatch_eq by (left; exact Hd).
    cbn [m_internalDispatchMap set_candidates]. rewrite Hd.
    rewrite (registerInternalDispatchTargetCandidate_eq functionAt p ft).
    2: done.
    2:{ right. simpl. apply lookup_delete_eq. }
    fold a. cbn [m_internalDispatchMap set_queue set_candidates set_dispatch].
    rewrite lookup_insert_eq. cbn zeta.
    set (candidates := at_key (m_internalDispatchTargetCandidates ctx) a).
    assert (at_key
              (m_internalDispatchTargetCandidates
                 (set_candidates
                    (λ m, <[a := {[p]} ∪ at_key m a]> m) ctx)) a
            = {[p]} ∪ candidates) as Hmoved.
    { unfold at_key. simpl. by rewrite lookup_insert_eq. }
    rewrite Hmoved. eexists. split; [reflexivity|]. split.
    + do 2 f_equal.
      destruct ctx as [registry pending locals dispatch cands].
      unfold set_queue, set_candidates, set_dispatch, not_generated in *.
      simpl in *.
      pose proof (not_generated_filter_insert
        {| m_functions := registry; m_functionGenerationQueue := pending;
           m_localVariables := locals; m_internalDispatchMap := dispatch;
           m_internalDispatchTargetCandidates := cands |} p pending candidates)
        as Hqueue.
      unfold not_generated in Hqueue. simpl in Hqueue.
      destruct (contains registry (functionName (functionAt p)));
        f_equal; rewrite ?Hqueue, ?insert_insert_eq, ?delete_insert_eq; done.
    + simpl. rewrite lookup_insert_eq, lookup_delete_eq.
      split; [|done]. f_equal. unfold at_key at 1. rewrite Hd. simpl.
      by rewrite (left_id_L ∅ (∪)).
Qed.

(** ** What holds after any sequence of calls *)

Lemma discard_Ok {A} (m : M A) ctx ctx' :
  discard m ctx = Ok (tt, ctx') → ∃ a, m ctx = Ok (a, ctx').
Proof.
  unfold discard, bind, pure. destruct (m ctx) as [[a c]|]; [|discriminate].
  intros [= <-]. by exists a.
Qed.

Lemma internalDispatch_state (fs : gset N) ctx fragment ctx' :
  internalDispatch functionAt fs ctx = Ok (fragment, ctx') →
  ctx' = ctx ∨
  ∃ a, ctx' = set_functions (<[internalDispatchFunctionName a := fragment]>) ctx.
Proof.
  intros Hrun. pose proof Hrun as Hok.
  apply internalDispatch_Ok in Hok as (Hne & a & Hall).
  rewrite (internalDispatch_eq functionAt fs a) in Hrun by done.
  destruct (m_functions ctx !! internalDispatchFunctionName a);
    injection Hrun as <- <-; eauto.
Qed.

(** The state after a call that returned, for each of the calls, on a state
    on which the two dispatch maps do not overlap. *)
Lemma call_state (variableAt : N → VariableDeclaration) (queue_key : N → Z)
    (c : Call) (ctx ctx' : IRGenerationContext) :
  call functionAt variableAt queue_key c ctx = Ok (tt, ctx') →
  dispatch_invariant ctx →
  match c with
  | CallEnqueue f =>
      ctx' = if contains (m_functions ctx) (functionName (functionAt f))
             then ctx else set_queue (λ q, {[f]} ∪ q) ctx
  | CallDequeue => ∃ f, ctx' = set_queue (λ q, q ∖ {[f]}) ctx
  | CallAddLocalVariable d =>
      ctx' = set_locals (<[d := {| iv_declaration := d |}]>) ctx
  | CallLocalVariable d => ctx' = ctx
  | CallRegisterCandidate f =>
      ∃ ft, fd_callable (functionAt f) = Some ft ∧
        registerInternalDispatchTargetCandidate functionAt f ctx
        = Ok (internalDispatchFunctionName (functionArityOfType ft), ctx')
  | CallRegisterDispatch a =>
      registerInternalDispatch functionAt a ctx
      = Ok (internalDispatchFunctionName a, ctx')
  | CallConsume => ctx' = cleared ctx
  | CallInternalDispatch fs =>
      ctx' = ctx ∨ ∃ name fragment,
        (∀ f, name ≠ functionName (functionAt f)) ∧
        ctx' = set_functions (<[name := fragment]>) ctx
  end.
Proof.
  intros Hcall Hinv. destruct c; cbn [call] in Hcall;
    apply discard_Ok in Hcall as [r Hrun].
  - rewrite enqueue_eq in Hrun. by injection Hrun as _ <-.
  - revert Hrun. unfold dequeueFunctionForCodeGeneration.
    cbv [bind gets modify solAssert pure].
    case_bool_decide; cbn [negb]; [discriminate|].
    intros [= _ <-]. eauto.
  - revert Hrun. unfold addLocalVariable, emplace.
    cbv [bind gets modify solAssert pure].
    destruct (m_localVariables ctx !! _varDecl) eqn:Hlookup;
      [discriminate|].
    intros [= _ <-]. done.
  - revert Hrun. unfold localVariable.
    cbv [bind gets modify solAssert pure].
    case_bool_decide; [|discriminate].
    destruct (m_localVariables ctx !! _varDecl); [|discriminate].
    by intros [= _ <-].
  - destruct (fd_callable (functionAt _function)) as [ft|] eqn:Hcallable.
    + exists ft. split; [done|].
      rewrite (registerInternalDispatchTargetCandidate_eq functionAt _ ft)
        in Hrun |- * by (done || apply Hinv).
      by injection Hrun as _ <-.
    + revert Hrun.
      unfold registerInternalDispatchTargetCandidate, functionArity, bind.
      by rewrite Hcallable.
  - rewrite registerInternalDispatch_eq in Hrun |- * by apply Hinv.
    by injection Hrun as _ <-.
  - rewrite consumeInternalDispatchMap_eq in Hrun.
    case_bool_decide; [|discriminate]. by injection Hrun as _ <-.
  - apply internalDispatch_state in Hrun as [->|[a ->]]; [by left|].
    right. exists (internalDispatchFunctionName a), r. split; [|done].
    intros f Heq. by apply (functionName_not_dispatch_name (functionAt f) a).
Qed.

Lemma call_keeps_dispatch_invariant variableAt queue_key c ctx ctx' :
  call functionAt variableAt queue_key c ctx = Ok (tt, ctx') →
  dispatch_invariant ctx ∧ candidates_populated ctx →
  dispatch_invariant ctx' ∧ candidates_populated ctx'.
Proof.
  intros Hcall [Hinv Hpop].
  pose proof (call_state _ _ _ _ _ Hcall Hinv) as Hstate.
  destruct c.
  - subst ctx'. by destruct (contains _ _).
  - by destruct Hstate as [f ->].
  - by subst ctx'.
  - by subst ctx'.
  - destruct Hstate as (ft & Hcallable & Hrun).
    rewrite (registerInternalDispatchTargetCandidate_eq functionAt _ ft)
      in Hrun by (done || apply Hinv).
    injection Hrun as <-.
    set (a := functionArityOfType ft) in *.
    destruct (m_internalDispatchMap ctx !! a) eqn:Hd.
    + assert (m_internalDispatchTargetCandidates ctx !! a = None) as Hc
        by (destruct (Hinv a); congruence).
      split.
      * intros b. destruct (contains _ _); simpl;
          (destruct (decide (a = b)) as [<-|Hne];
           [by right|rewrite lookup_insert_ne by done; apply Hinv]).
      * by destruct (contains _ _).
    + split.
      * intros b. simpl. destruct (decide (a = b)) as [<-|Hne]; [by left|].
        rewrite lookup_insert_ne by done. apply Hinv.
      * intros b functions. simpl.
        destruct (decide (a = b)) as [<-|Hne].
        -- rewrite lookup_insert_eq. intros [= <-] Hempty.
           assert (_function ∈ (∅ : gset N)) as Hin
             by (rewrite <- Hempty; apply elem_of_union; left;
                 by apply elem_of_singleton).
           by apply elem_of_empty in Hin.
        -- rewrite lookup_insert_ne by done. apply Hpop.
  - rewrite registerInternalDispatch_eq in Hstate by apply Hinv.
    injection Hstate as <-.
    destruct (m_internalDispatchMap ctx !! _arity) eqn:Hd; [done|]. split.
    + intros b. simpl. destruct (decide (_arity = b)) as [<-|Hne].
      * right. apply lookup_delete_eq.
      * rewrite lookup_insert_ne, lookup_delete_ne by done. apply Hinv.
    + intros b functions. simpl. destruct (decide (_arity = b)) as [<-|Hne].
      * by rewrite lookup_delete_eq.
      * rewrite lookup_delete_ne by done. apply Hpop.
  - subst ctx'. split.
    + intros b. left. apply lookup_empty.
    + intros b functions. simpl. by rewrite lookup_empty.
  - by destruct Hstate as [->|(name & fragment & _ & ->)].
Qed.

Lemma dequeue_Ok (queue_key : N → Z) ctx f ctx' :
  dequeueFunctionForCodeGeneration queue_key ctx = Ok (f, ctx') →
  f ∈ queue ctx ∧ ctx' = set_queue (λ q, q ∖ {[f]}) ctx.
Proof.
  unfold dequeueFunctionForCodeGeneration.
  cbv [bind gets modify solAssert pure].
  case_bool_decide as Hempty; cbn [negb]; [discriminate|].
  destruct (head (std_set_elements queue_key (queue ctx))) as [first|] eqn:Hhd.
  - apply std_set_begin_least in Hhd as [Hin _]. simpl. by intros [= <- <-].
  - by apply std_set_begin_None in Hhd.
Qed.

(** A sequence of calls that returned, split at its first call. *)
Lemma calls_cons_Ok variableAt queue_key c cs start fs ctx :
  calls functionAt variableAt queue_key (c :: cs) start = Ok (fs, ctx) →
  ∃ next handed rest,
    call functionAt variableAt queue_key c start = Ok (tt, next) ∧
    calls functionAt variableAt queue_key cs next = Ok (rest, ctx) ∧
    fs = (handed ++ rest)%list ∧
    match c with
    | CallDequeue =>
        ∃ f, handed = [f] ∧ f ∈ queue start ∧
             next = set_queue (λ q, q ∖ {[f]}) start
    | _ => handed = []
    end.
Proof.
  assert (∀ c', (∀ tail, calls functionAt variableAt queue_key (c' :: tail)
                  = bind (call functionAt variableAt queue_key c')
                         (λ _, calls functionAt variableAt queue_key tail)) →
          c = c' → c' ≠ CallDequeue →
          calls functionAt variableAt queue_key (c :: cs) start = Ok (fs, ctx) →
          ∃ next,
            call functionAt variableAt queue_key c start = Ok (tt, next) ∧
            calls functionAt variableAt queue_key cs next = Ok (fs, ctx))
    as Hplain.
  { intros c' Hunfold -> _. rewrite Hunfold. unfold bind.
    destruct (call functionAt variableAt queue_key c' start)
      as [[[] next]|]; [|discriminate].
    intros Hrest. by exists next. }
  intros Hrun.
  destruct c;
    try (edestruct Hplain as (next & Hcall & Hrest);
         [| reflexivity | discriminate | exact Hrun |
          exists next, [], fs; by split_and! ]; done).
  revert Hrun. cbn [calls call]. unfold discard, bind.
  destruct (dequeueFunctionForCodeGeneration queue_key start)
    as [[f next]|] eqn:Hdeq; [|discriminate].
  destruct (calls functionAt variableAt queue_key cs next)
    as [[rest final]|] eqn:Hrest; [|discriminate].
  unfold pure. intros [= <- <-].
  apply dequeue_Ok in Hdeq as [Hin ->].
  exists (set_queue (λ q, q ∖ {[f]}) start), [f], rest.
  split_and!; try done. by exists f.
Qed.

(** X9: after any sequence of calls on the empty context that did not fail,
    no arity is confirmed and has candidates at once, and no candidate set is
    empty; so the assertion at the head of [registerInternalDispatch] holds
    for every arity, and [registerInternalDispatchTargetCandidate] returns
    for every function with a callable type. *)
Theorem registration_never_fails_after_calls
    (variableAt : N → VariableDeclaration) (queue_key : N → Z)
    (cs : list Call) (dequeued : list N) (ctx : IRGenerationContext) :
  calls functionAt variableAt queue_key cs emptyContext = Ok (dequeued, ctx) →
  dispatch_invariant ctx ∧
  candidates_populated ctx ∧
  (∀ a, ∃ ctx', registerInternalDispatch functionAt a ctx
                = Ok (internalDispatchFunctionName a, ctx')) ∧
  (∀ p ft, fd_callable (functionAt p) = Some ft →
     ∃ ctx', registerInternalDispatchTargetCandidate functionAt p ctx
             = Ok (internalDispatchFunctionName (functionArityOfType ft), ctx')).
Proof.
  assert (∀ start fs,
    dispatch_invariant start ∧ candidates_populated start →
    calls functionAt variableAt queue_key cs start = Ok (fs, ctx) →
    dispatch_invariant ctx ∧ candidates_populated ctx) as Hkept.
  { induction cs as [|c cs IH]; intros start fs Hstart.
    - cbn [calls]. unfold pure. by intros [= _ <-].
    - intros Hrun.
      apply calls_cons_Ok in Hrun
        as (next & handed & rest & Hcall & Hrest & _ & _).
      apply (IH next rest); [|done].
      by apply (call_keeps_dispatch_invariant _ _ _ _ _ Hcall). }
  intros Hrun.
  destruct (Hkept emptyContext dequeued) as [Hinv Hpop]; [|done|].
  { split; [apply dispatch_invariant_emptyContext|].
    intros a functions. simpl. by rewrite lookup_empty. }
  split_and!; [done..| |].
  - intros a. rewrite registerInternalDispatch_eq by apply Hinv. eauto.
  - intros p ft Hcallable.
    rewrite (registerInternalDispatchTargetCandidate_eq functionAt p ft)
      by (done || apply Hinv).
    eauto.
Qed.

Lemma not_generated_contains ctx p :
  not_generated functionAt ctx p
  ↔ contains (m_functions ctx) (functionName (functionAt p)) = false.
Proof. unfold not_generated. by rewrite contains_false. Qed.

Lemma covered_step_general (handed handed' : list N)
    (start next : IRGenerationContext) :
  (∀ a functions x,
     m_internalDispatchMap next !! a = Some functions → x ∈ functions →
     (∃ before, m_internalDispatchMap start !! a = Some before ∧ x ∈ before) ∨
     x ∈ queue next ∨ ¬ not_generated functionAt next x) →
  (∀ x, x ∈ queue start → x ∈ queue next ∨ x ∈ handed') →
  (∀ x, not_generated functionAt next x → not_generated functionAt start x) →
  (∀ x, x ∈ handed → x ∈ handed') →
  confirmed_covered functionAt handed start →
  confirmed_covered functionAt handed' next.
Proof.
  intros Hmap Hqueue Hgen Hhanded Hcovered a functions x Ha Hx.
  destruct (Hmap a functions x Ha Hx) as [(before & Hbefore & Hin)|[?|?]];
    [|by left|by right; left].
  destruct (Hcovered a before x Hbefore Hin) as [Hq|[Hg|Hh]].
  - destruct (Hqueue x Hq); [by left|by right; right].
  - right. left. intros Hng. by apply Hg, Hgen.
  - right. right. by apply Hhanded.
Qed.

Lemma call_keeps_covered variableAt queue_key c start next handed new :
  dispatch_invariant start →
  confirmed_covered functionAt handed start →
  call functionAt variableAt queue_key c start = Ok (tt, next) →
  match c with
  | CallDequeue =>
      ∃ f, new = [f] ∧ f ∈ queue start ∧
           next = set_queue (λ q, q ∖ {[f]}) start
  | _ => new = []
  end →
  confirmed_covered functionAt (handed ++ new)%list next.
Proof.
  intros Hinv Hcovered Hcall Hnew.
  pose proof (call_state _ _ _ _ _ Hcall Hinv) as Hstate.
  assert (∀ x, x ∈ handed → x ∈ (handed ++ new)%list) as Hhanded
    by (intros x Hx; apply elem_of_app; by left).
  revert Hcovered. apply covered_step_general; try done; clear Hhanded;
    destruct c; try subst new.
  (* the confirmed sets *)
  - subst next. intros a fs x Ha Hx. left. exists fs.
    by destruct (contains _ _).
  - destruct Hnew as (f & -> & Hf & ->). intros a fs x Ha Hx. left. eauto.
  - subst next. intros a fs x Ha Hx. left. eauto.
  - subst next. intros a fs x Ha Hx. left. eauto.
  - destruct Hstate as (ft & Hcallable & Hrun).
    rewrite (registerInternalDispatchTargetCandidate_eq functionAt _ ft)
      in Hrun by (done || apply Hinv).
    injection Hrun as <-. set (a := functionArityOfType ft) in *.
    intros b fs x Hb Hx.
    destruct (m_internalDispatchMap start !! a) as [confirmed|] eqn:Hd;
      [|left; eauto].
    assert (m_internalDispatchMap
              (set_dispatch (<[a := {[_function]} ∪ confirmed]>) start) !! b
            = Some fs) as Hb' by (by destruct (contains _ _)).
    simpl in Hb'. destruct (decide (a = b)) as [<-|Hne].
    + rewrite lookup_insert_eq in Hb'. injection Hb' as <-.
      apply elem_of_union in Hx as [Hx|Hx]; [|left; eauto].
      apply elem_of_singleton in Hx as ->. right.
      destruct (contains (m_functions start)
                  (functionName (functionAt _function))) eqn:Hgen.
      * right. rewrite not_generated_contains. simpl. congruence.
      * left. simpl. apply elem_of_union. left. by apply elem_of_singleton.
    + rewrite lookup_insert_ne in Hb' by done. left. eauto.
  - rewrite registerInternalDispatch_eq in Hstate by apply Hinv.
    injection Hstate as <-. intros b fs x Hb Hx.
    destruct (m_internalDispatchMap start !! _arity) eqn:Hd; [left; eauto|].
    simpl in Hb. destruct (decide (_arity = b)) as [<-|Hne].
    + rewrite lookup_insert_eq in Hb. injection Hb as <-. right.
      destruct (decide (not_generated functionAt start x)) as [Hng|Hng].
      * left. simpl. apply elem_of_union. right. by apply elem_of_filter.
      * by right.
    + rewrite lookup_insert_ne in Hb by done. left. eauto.
  - subst next. intros a fs x Ha. simpl in Ha. by rewrite lookup_empty in Ha.
  - destruct Hstate as [->|(name & fragment & _ & ->)];
      intros a fs x Ha Hx; left; eauto.
  (* the pending functions *)
  - subst next. intros x Hx. left. destruct (contains _ _); [done|].
    simpl. apply elem_of_union. by right.
  - destruct Hnew as (f & -> & Hf & ->). intros x Hx. simpl.
    destruct (decide (x = f)) as [->|Hne].
    + right. apply elem_of_app. right. by apply list_elem_of_singleton.
    + left. apply elem_of_difference. split; [done|].
      by rewrite elem_of_singleton.
  - subst next. by left.
  - subst next. by left.
  - destruct Hstate as (ft & Hcallable & Hrun).
    rewrite (registerInternalDispatchTargetCandidate_eq functionAt _ ft)
      in Hrun by (done || apply Hinv).
    injection Hrun as <-. intros x Hx. left.
    destruct (m_internalDispatchMap start !! functionArityOfType ft);
      [|done].
    cbn zeta. destruct (contains _ _); [done|].
    simpl. apply elem_of_union. by right.
  - rewrite registerInternalDispatch_eq in Hstate by apply Hinv.
    injection Hstate as <-. intros x Hx. left.
    destruct (m_internalDispatchMap start !! _arity); [done|].
    simpl. apply elem_of_union. by left.
  - subst next. by left.
  - destruct Hstate as [->|(name & fragment & _ & ->)]; by left.
  (* the registry *)
  - subst next. by destruct (contains _ _).
  - by destruct Hnew as (f & -> & Hf & ->).
  - by subst next.
  - by subst next.
  - destruct Hstate as (ft & Hcallable & Hrun).
    rewrite (registerInternalDispatchTargetCandidate_eq functionAt _ ft)
      in Hrun by (done || apply Hinv).
    injection Hrun as <-.
    destruct (m_internalDispatchMap start !! functionArityOfType ft);
      [|done].
    cbn zeta. by destruct (contains _ _).
  - rewrite registerInternalDispatch_eq in Hstate by apply Hinv.
    injection Hstate as <-.
    by destruct (m_internalDispatchMap start !! _arity).
  - by subst next.
  - destruct Hstate as [->|(name & fragment & Hname & ->)]; [done|].
    intros x. unfold not_generated. simpl.
    by rewrite lookup_insert_ne by apply Hname.
Qed.

(** X10: after any sequence of calls on the empty context that did not
    fail, every function of a confirmed dispatch set is pending, or has its
    code in the registry, or was returned by one of the calls of
    [dequeueFunctionForCodeGeneration]: no function that a dispatch function
    will call is left out of code generation. *)
Theorem confirmed_functions_reach_generation
    (variableAt : N → VariableDeclaration) (queue_key : N → Z)
    (cs : list Call) (dequeued : list N) (ctx : IRGenerationContext) :
  calls functionAt variableAt queue_key cs emptyContext = Ok (dequeued, ctx) →
  ∀ a functions p,
    m_internalDispatchMap ctx !! a = Some functions →
    p ∈ functions →
    p ∈ queue ctx ∨
    is_Some (m_functions ctx !! functionName (functionAt p)) ∨
    p ∈ dequeued.
Proof.
  assert (∀ start handed fs,
    dispatch_invariant start ∧ candidates_populated start →
    confirmed_covered functionAt handed start →
    calls functionAt variableAt queue_key cs start = Ok (fs, ctx) →
    confirmed_covered functionAt (handed ++ fs)%list ctx) as Hkept.
  { induction cs as [|c cs IH]; intros start handed fs Hstart Hcovered.
    - cbn [calls]. unfold pure. intros [= <- <-]. by rewrite app_nil_r.
    - intros Hrun.
      apply calls_cons_Ok in Hrun
        as (next & new & rest & Hcall & Hrest & -> & Hnew).
      rewrite (assoc_L app). apply (IH next); [| |done].
      + by apply (call_keeps_dispatch_invariant _ _ _ _ _ Hcall).
      + by apply (call_keeps_covered _ _ _ _ _ _ _ (proj1 Hstart) Hcovered Hcall). }
  intros Hrun a functions p Ha Hp.
  assert (confirmed_covered functionAt ([] ++ dequeued)%list ctx) as Hcov.
  { apply (Hkept emptyContext); [|
      intros b fs x Hb; simpl in Hb; by rewrite lookup_empty in Hb|done].
    split; [apply dispatch_invariant_emptyContext|].
    intros b fs. simpl. by rewrite lookup_empty. }
  destruct (Hcov a functions p Ha Hp) as [?|[Hgen|?]].
  - by left.
  - right. left. unfold not_generated in Hgen.
    by destruct (m_functions ctx !! functionName (functionAt p)).
  - by right; right.
Qed.

(** ** Draining the queue *)

Lemma key_le_antisymm (key : N → Z) :
  Inj (=) (=) key → AntiSymm (=) (key_le key).
Proof. intros Hinj x y Hxy Hyx. apply Hinj. unfold key_le in *. lia. Qed.

(** Without its first element, a set lists the rest of its elements. *)
Lemma std_set_elements_tail (key : N → Z) (s : gset N) x l :
  Inj (=) (=) key →
  std_set_elements key s = x :: l →
  std_set_elements key (s ∖ {[x]}) = l.
Proof.
  intros Hinj Hl.
  pose proof (key_le_antisymm key Hinj) as Hanti.
  pose proof (Sorted_merge_sort (key_le key) (elements s)) as Hsorted.
  pose proof (NoDup_std_set_elements key s) as Hnodup.
  fold (std_set_elements key s) in Hsorted. rewrite Hl in Hsorted, Hnodup.
  apply NoDup_cons in Hnodup as [Hx Hnodup].
  apply (Sorted_unique (key_le key)).
  - apply Sorted_merge_sort. apply _.
  - by apply Sorted_inv in Hsorted as [? _].
  - apply NoDup_Permutation; [apply NoDup_std_set_elements|done|].
    intros y. rewrite elem_of_std_set_elements, elem_of_difference,
      elem_of_singleton, <- (elem_of_std_set_elements key s), Hl, elem_of_cons.
    split; [intros [[?|?] ?]; by subst|].
    intros Hy. split; [by right|]. by intros ->.
Qed.

Lemma dequeue_first (queue_key : N → Z) ctx x l :
  std_set_elements queue_key (queue ctx) = x :: l →
  dequeueFunctionForCodeGeneration queue_key ctx
  = Ok (x, set_queue (λ q, q ∖ {[x]}) ctx).
Proof.
  intros Hl. unfold dequeueFunctionForCodeGeneration.
  cbv [bind gets modify solAssert pure]. rewrite Hl.
  case_bool_decide as Hempty; cbn [negb]; [|done].
  pose proof (length_std_set_elements queue_key (queue ctx)) as Hlen.
  by rewrite Hl, Hempty, size_empty in Hlen.
Qed.

(** X11: when the comparator of the queue tells any two pointers apart, as
    many calls of [dequeueFunctionForCodeGeneration] in a row as functions
    are pending all return, their results are the pending functions in the
    order of the queue, each once, and nothing is pending afterwards, so
    that one more call fails. *)
Theorem dequeue_drains_queue_in_order
    (queue_key : N → Z) (ctx : IRGenerationContext) :
  Inj (=) (=) queue_key →
  dequeueMany queue_key (size (queue ctx)) ctx
    = Ok (std_set_elements queue_key (queue ctx), set_queue (λ _, ∅) ctx) ∧
  failed (dequeueFunctionForCodeGeneration queue_key
            (set_queue (λ _, ∅) ctx)).
Proof.
  intros Hinj. split.
  - remember (size (queue ctx)) as n eqn:Hn. revert ctx Hn.
    induction n as [|n IH]; intros ctx Hn.
    + symmetry in Hn. apply size_empty_inv, leibniz_equiv in Hn.
      cbn [dequeueMany]. unfold pure.
      destruct ctx as [registry pending locals dispatch candidates].
      simpl in Hn. subst pending. unfold set_queue. simpl.
      by rewrite std_set_elements_empty_L.
    + destruct (std_set_elements queue_key (queue ctx)) as [|x l] eqn:Hl.
      { pose proof (length_std_set_elements queue_key (queue ctx)) as Hlen.
        rewrite Hl in Hlen. simpl in Hlen. lia. }
      cbn [dequeueMany]. unfold bind at 1.
      rewrite (dequeue_first queue_key ctx x l Hl).
      pose proof (std_set_elements_tail queue_key _ x l Hinj Hl) as Htail.
      unfold bind.
      rewrite (IH (set_queue (λ q, q ∖ {[x]}) ctx)).
      * simpl. rewrite Htail. unfold pure. by destruct ctx.
      * simpl.
        pose proof (length_std_set_elements queue_key (queue ctx ∖ {[x]}))
          as Hlen.
        rewrite Htail in Hlen.
        pose proof (length_std_set_elements queue_key (queue ctx)) as Hlen'.
        rewrite Hl in Hlen'. simpl in Hlen'. lia.
  - unfold dequeueFunctionForCodeGeneration.
    cbv [bind gets modify solAssert pure]. simpl.
    by rewrite bool_decide_eq_true_2.
Qed.

(** ** Enqueueing in any order *)

(** X12: enqueueing the functions of a list one after the other never
    fails, and listing the same functions in another order ends in the same
    state. *)
Theorem enqueue_order_irrelevant (ps ps' : list N) (ctx : IRGenerationContext) :
  ps ≡ₚ ps' →
  ∃ ctx',
    for_each ps (λ function, bind (enqueue function) (λ _, pure tt)) ctx
      = Ok (tt, ctx') ∧
    for_each ps' (λ function, bind (enqueue function) (λ _, pure tt)) ctx
      = Ok (tt, ctx') ∧
    queue ctx' = queue ctx ∪ list_to_set (filter (not_generated functionAt ctx) ps).
Proof.
  intros Hperm. rewrite !for_each_enqueue.
  eexists. split; [reflexivity|]. split; [|done].
  do 2 f_equal. destruct ctx; unfold set_queue; simpl. f_equal. f_equal.
  apply set_eq. intros x.
  by rewrite !elem_of_list_to_set, !list_elem_of_filter, Hperm.
Qed.

(** ** Registered functions are kept *)

(** X13: on a state on which the arity is not both confirmed and a
    candidate, [registerInternalDispatch] loses and adds no registered
    function of any arity; after it, the functions registered for its arity
    are all confirmed and the arity has no candidates. *)
Theorem registerDispatch_keeps_registered
    (a : Arity) (ctx : IRGenerationContext) :
  m_internalDispatchMap ctx !! a = None ∨
  m_internalDispatchTargetCandidates ctx !! a = None →
  ∃ ctx',
    registerInternalDispatch functionAt a ctx
      = Ok (internalDispatchFunctionName a, ctx') ∧
    (∀ b, registered ctx' b = registered ctx b) ∧
    m_internalDispatchMap ctx' !! a = Some (registered ctx a) ∧
    m_internalDispatchTargetCandidates ctx' !! a = None.
Proof.
  intros Hinv. rewrite registerInternalDispatch_eq by done.
  eexists. split; [reflexivity|]. unfold registered, at_key.
  destruct (m_internalDispatchMap ctx !! a) as [confirmed|] eqn:Hd.
  - destruct Hinv as [?|Hc]; [done|]. split_and!; [done| |done].
    rewrite Hd, Hc. simpl. by rewrite (right_id_L ∅ (∪)).
  - simpl. split_and!.
    + intros b. destruct (decide (a = b)) as [<-|Hne].
      * rewrite lookup_insert_eq, lookup_delete_eq, Hd. simpl.
        by rewrite (right_id_L ∅ (∪)), (left_id_L ∅ (∪)).
      * by rewrite lookup_insert_ne, lookup_delete_ne.
    + rewrite lookup_insert_eq. simpl. by rewrite (left_id_L ∅ (∪)).
    + apply lookup_delete_eq.
Qed.

(** X14: when no confirmed set is empty and some function is registered for
    an arity, requesting the dispatch of the arity and then consuming the
    dispatch map does not fail: the map returned holds, for the arity, the
    functions that were registered for it, and the confirmed sets of the
    other arities as they were. *)
Theorem consume_after_registerDispatch
    (a : Arity) (ctx : IRGenerationContext) :
  m_internalDispatchMap ctx !! a = None ∨
  m_internalDispatchTargetCandidates ctx !! a = None →
  (∀ b functions, m_internalDispatchMap ctx !! b = Some functions →
                  functions ≠ ∅) →
  registered ctx a ≠ ∅ →
  ∃ ctx',
    registerInternalDispatch functionAt a ctx
      = Ok (internalDispatchFunctionName a, ctx') ∧
    consumeInternalDispatchMap ctx'
      = Ok (<[a := registered ctx a]> (m_internalDispatchMap ctx),
            cleared ctx').
Proof.
  intros Hinv Hpopulated Hregistered.
  rewrite registerInternalDispatch_eq by done.
  eexists. split; [reflexivity|].
  rewrite consumeInternalDispatchMap_eq.
  unfold registered, at_key in *.
  destruct (m_internalDispatchMap ctx !! a) as [confirmed|] eqn:Hd.
  - destruct Hinv as [?|Hc]; [done|]. rewrite Hc. simpl.
    rewrite (right_id_L ∅ (∪)), (insert_id _ _ _ Hd).
    by rewrite bool_decide_eq_true_2.
  - simpl in *. rewrite (left_id_L ∅ (∪)) in Hregistered |- *.
    rewrite bool_decide_eq_true_2; [done|].
    apply map_Forall_insert_2; [done|]. intros b functions. apply Hpopulated.
Qed.

End FurtherProperties.

(** ** Local variables and state variables *)

Lemma addLocalVariable_eq (decl : N) (ctx : IRGenerationContext) :
  addLocalVariable decl ctx =
  match m_localVariables ctx !! decl with
  | Some _ => AssertionFailed "Local variable added multiple times."
  | None => Ok ({| iv_declaration := decl |},
                set_locals (<[decl := {| iv_declaration := decl |}]>) ctx)
  end.
Proof.
  unfold addLocalVariable, emplace. cbv [bind gets modify solAssert pure].
  by destruct (m_localVariables ctx !! decl).
Qed.

Lemma localVariable_eq (variableAt : N → VariableDeclaration) (decl : N)
    (ctx : IRGenerationContext) :
  localVariable variableAt decl ctx =
  match m_localVariables ctx !! decl with
  | Some v => Ok (v, ctx)
  | None => AssertionFailed
              ("Unknown variable: " +:+ vd_name (variableAt decl))
  end.
Proof.
  unfold localVariable, map_count. cbv [bind gets modify solAssert pure].
  by destruct (m_localVariables ctx !! decl).
Qed.

(** X15: after [addLocalVariable] returned for a declaration, the variable
    it returned is what [localVariable] gives for the declaration, adding
    the declaration once more fails, and [localVariable] answers for every
    other declaration what it answered before: the variable bound to it, or
    the failure. *)
Theorem addLocalVariable_then_lookup
    (variableAt : N → VariableDeclaration) (decl : N)
    (ctx ctx' : IRGenerationContext) (v : IRVariable) :
  addLocalVariable decl ctx = Ok (v, ctx') →
  localVariable variableAt decl ctx' = Ok (v, ctx') ∧
  addLocalVariable decl ctx'
    = AssertionFailed "Local variable added multiple times." ∧
  ∀ other, other ≠ decl →
    outcome_value (localVariable variableAt other ctx')
    = outcome_value (localVariable variableAt other ctx) ∧
    (failed (localVariable variableAt other ctx')
     ↔ failed (localVariable variableAt other ctx)).
Proof.
  rewrite addLocalVariable_eq.
  destruct (m_localVariables ctx !! decl) eqn:Hfree; [discriminate|].
  intros [= <- <-]. split_and!.
  - rewrite localVariable_eq. simpl. by rewrite lookup_insert_eq.
  - rewrite addLocalVariable_eq. simpl. by rewrite lookup_insert_eq.
  - intros other Hother. rewrite !localVariable_eq. simpl.
    rewrite lookup_insert_ne by done.
    by destruct (m_localVariables ctx !! other).
Qed.

(** X16: [addStateVariable] overwrites: of two locations given to one
    declaration the second stays; the locations of two different
    declarations can be given in either order; and a location given to a
    declaration leaves those of the other declarations, the counter of the
    Yul variables and the most derived contract as they are. *)
Theorem addStateVariable_last_write_wins
    (decl other : N) (slot slot' offset offset' : N) (members : OtherMembers) :
  addStateVariable decl slot' offset' (addStateVariable decl slot offset members)
    = addStateVariable decl slot' offset' members ∧
  m_stateVariables (addStateVariable decl slot offset members) !! decl
    = Some (slot, offset) ∧
  m_varCounter (addStateVariable decl slot offset members)
    = m_varCounter members ∧
  m_mostDerivedContract (addStateVariable decl slot offset members)
    = m_mostDerivedContract members ∧
  (other ≠ decl →
   m_stateVariables (addStateVariable decl slot offset members) !! other
     = m_stateVariables members !! other ∧
   addStateVariable decl slot offset
     (addStateVariable other slot' offset' members)
   = addStateVariable other slot' offset'
       (addStateVariable decl slot offset members)).
Proof.
  unfold addStateVariable. simpl. split_and!; try done.
  - by rewrite insert_insert_eq.
  - apply lookup_insert_eq.
  - intros Hother. split.
    + by rewrite lookup_insert_ne.
    + f_equal. by apply insert_insert_ne.
Qed.

(** * The further properties on the sample compilation unit *)

Lemma object_names_distinct_witness :
  (cd_id {| cd_name := "C"; cd_id := 3 |} ≠ cd_id {| cd_name := "C"; cd_id := 4 |}) ∧
  creationObjectName {| cd_name := "C"; cd_id := 3 |}
    ≠ creationObjectName {| cd_name := "C"; cd_id := 4 |} ∧
  runtimeObjectName {| cd_name := "C"; cd_id := 3 |}
    ≠ runtimeObjectName {| cd_name := "C"; cd_id := 4 |} ∧
  runtimeObjectName {| cd_name := "C"; cd_id := 3 |} = "C_3_deployed".
Proof.
  assert (cd_id {| cd_name := "C"; cd_id := 3 |}
          ≠ cd_id {| cd_name := "C"; cd_id := 4 |}) as Hid by (simpl; lia).
  destruct (object_names_distinct {| cd_name := "C"; cd_id := 3 |}
              {| cd_name := "C"; cd_id := 4 |}) as (_ & _ & Hc & Hr).
  split; [exact Hid|]. split; [exact (Hc Hid)|]. split; [exact (Hr Hid)|].
  vm_compute. reflexivity.
Defined.

Lemma internalDispatchFunctionName_injective_witness :
  {| ar_in := 1; ar_out := 11 |} ≠ {| ar_in := 11; ar_out := 1 |} ∧
  internalDispatchFunctionName {| ar_in := 1; ar_out := 11 |}
    ≠ internalDispatchFunctionName {| ar_in := 11; ar_out := 1 |}.
Proof.
  assert ({| ar_in := 1; ar_out := 11 |} ≠ {| ar_in := 11; ar_out := 1 |})
    as Hne by discriminate.
  split; [exact Hne|].
  exact (internalDispatchFunctionName_injective _ _ Hne).
Defined.

Lemma trySuccessConditionVariable_names_witness :
  ex_tryCall {| ex_id := 8; ex_tryCall := true |} = true ∧
  ex_tryCall {| ex_id := 9; ex_tryCall := true |} = true ∧
  ex_id {| ex_id := 8; ex_tryCall := true |}
    ≠ ex_id {| ex_id := 9; ex_tryCall := true |} ∧
  trySuccessConditionVariable {| ex_id := 8; ex_tryCall := true |}
    ≠ trySuccessConditionVariable {| ex_id := 9; ex_tryCall := true |} ∧
  trySuccessConditionVariable {| ex_id := 8; ex_tryCall := true |}
    = Ok "trySuccessCondition_8".
Proof.
  assert (ex_id {| ex_id := 8; ex_tryCall := true |}
          ≠ ex_id {| ex_id := 9; ex_tryCall := true |}) as Hid by (simpl; lia).
  split; [reflexivity|]. split; [reflexivity|]. split; [exact Hid|]. split.
  - exact (proj2 (trySuccessConditionVariable_names
                    {| ex_id := 8; ex_tryCall := true |}
                    {| ex_id := 9; ex_tryCall := true |}) eq_refl eq_refl Hid).
  - vm_compute. reflexivity.
Defined.

Lemma internalDispatch_touches_only_its_entry_witness :
  ∃ fragment ctx',
    internalDispatch Sample.functionAt {[ 1%N; 2%N ]} emptyContext
      = Ok (fragment, ctx') ∧
    m_functions ctx' !! internalDispatchFunctionName Sample.arity11
      = Some fragment ∧
    (∀ p, not_generated Sample.functionAt ctx' p
          ↔ not_generated Sample.functionAt emptyContext p) ∧
    m_functionGenerationQueue ctx' = ∅.
Proof.
  pose proof (internalDispatch_eq Sample.functionAt {[ 1%N; 2%N ]}
                Sample.arity11 emptyContext sample_functions_nonempty
                sample_dispatchable) as Hrun.
  change (m_functions emptyContext
            !! internalDispatchFunctionName Sample.arity11)
    with (@None string) in Hrun.
  eexists _, _. split; [exact Hrun|].
  destruct (internalDispatch_touches_only_its_entry Sample.functionAt
              _ _ _ _ Hrun)
    as (a & Hall & Hstored & _ & Hgen & Hqueue & _).
  assert (a = Sample.arity11) as ->.
  { destruct (Hall 1%N) as (_ & Harity & _).
    - apply elem_of_union. left. by apply elem_of_singleton.
    - simpl in Harity. by injection Harity as <-. }
  split; [exact Hstored|]. split; [exact Hgen|]. exact Hqueue.
Defined.

Lemma registration_order_irrelevant_witness :
  fd_callable (Sample.functionAt 1) = Some Sample.oneToOne ∧
  (m_internalDispatchMap emptyContext
     !! functionArityOfType Sample.oneToOne = None ∨
   m_internalDispatchTargetCandidates emptyContext
     !! functionArityOfType Sample.oneToOne = None) ∧
  ∃ ctx',
    bind (registerInternalDispatchTargetCandidate Sample.functionAt 1)
      (λ _, registerInternalDispatch Sample.functionAt Sample.arity11)
      emptyContext
      = Ok (internalDispatchFunctionName Sample.arity11, ctx') ∧
    bind (registerInternalDispatch Sample.functionAt Sample.arity11)
      (λ _, registerInternalDispatchTargetCandidate Sample.functionAt 1)
      emptyContext
      = Ok (internalDispatchFunctionName Sample.arity11, ctx') ∧
    m_internalDispatchMap ctx' !! Sample.arity11
      = Some ({[ 1%N ]} ∪ registered emptyContext Sample.arity11) ∧
    m_internalDispatchTargetCandidates ctx' !! Sample.arity11 = None.
Proof.
  split; [reflexivity|]. split; [left; reflexivity|].
  exact (registration_order_irrelevant Sample.functionAt 1 Sample.oneToOne
           emptyContext eq_refl (or_introl eq_refl)).
Defined.

Lemma sampleCalls_return :
  ∃ ctx,
    calls Sample.functionAt Sample.variableAt by_address sampleCalls
      emptyContext = Ok ([1%N], ctx).
Proof. eexists. vm_compute. reflexivity. Qed.

Lemma registration_never_fails_after_calls_witness :
  ∃ dequeued ctx,
    calls Sample.functionAt Sample.variableAt by_address sampleCalls
      emptyContext = Ok (dequeued, ctx) ∧
    dispatch_invariant ctx ∧
    candidates_populated ctx ∧
    (∀ a, ∃ ctx', registerInternalDispatch Sample.functionAt a ctx
                  = Ok (internalDispatchFunctionName a, ctx')).
Proof.
  destruct sampleCalls_return as [ctx Hrun].
  exists [1%N], ctx. split; [exact Hrun|].
  destruct (registration_never_fails_after_calls Sample.functionAt
              Sample.variableAt by_address sampleCalls [1%N] ctx Hrun)
    as (Hinv & Hpop & Hdispatch & _).
  split; [exact Hinv|]. split; [exact Hpop|]. exact Hdispatch.
Defined.

Lemma confirmed_functions_reach_generation_witness :
  ∃ dequeued ctx,
    calls Sample.functionAt Sample.variableAt by_address sampleCalls
      emptyContext = Ok (dequeued, ctx) ∧
    dequeued = [1%N] ∧
    m_internalDispatchMap ctx !! Sample.arity11 = Some {[ 1%N; 2%N ]} ∧
    ∀ p, p ∈ ({[ 1%N; 2%N ]} : gset N) →
      p ∈ m_functionGenerationQueue ctx ∨
      is_Some (m_functions ctx !! functionName (Sample.functionAt p)) ∨
      p ∈ dequeued.
Proof.
  destruct sampleCalls_return as [ctx Hrun].
  assert (m_internalDispatchMap ctx !! Sample.arity11 = Some {[ 1%N; 2%N ]})
    as Hconfirmed.
  { revert Hrun. vm_compute. intros [= <-]. reflexivity. }
  exists [1%N], ctx. split; [exact Hrun|]. split; [reflexivity|].
  split; [exact Hconfirmed|].
  intros p Hp.
  exact (confirmed_functions_reach_generation Sample.functionAt
           Sample.variableAt by_address sampleCalls [1%N] ctx Hrun
           Sample.arity11 {[ 1%N; 2%N ]} p Hconfirmed Hp).
Defined.

Lemma by_address_inj : Inj (=) (=) by_address.
Proof. intros x y. unfold by_address. lia. Qed.

Lemma dequeue_drains_queue_in_order_witness :
  Inj (=) (=) by_address ∧
  dequeueMany by_address 2 Sample.withPending
    = Ok ([1%N; 2%N], emptyContext) ∧
  failed (dequeueFunctionForCodeGeneration by_address emptyContext).
Proof.
  split; [exact by_address_inj|].
  exact (dequeue_drains_queue_in_order by_address Sample.withPending
           by_address_inj).
Defined.

Lemma enqueue_order_irrelevant_witness :
  [1%N; 2%N] ≡ₚ [2%N; 1%N] ∧
  ∃ ctx',
    for_each [1%N; 2%N]
      (λ function,
         bind (enqueueFunctionForCodeGeneration Sample.functionAt function)
              (λ _, pure tt)) emptyContext = Ok (tt, ctx') ∧
    for_each [2%N; 1%N]
      (λ function,
         bind (enqueueFunctionForCodeGeneration Sample.functionAt function)
              (λ _, pure tt)) emptyContext = Ok (tt, ctx') ∧
    m_functionGenerationQueue ctx'
      = m_functionGenerationQueue emptyContext
        ∪ list_to_set
            (filter (not_generated Sample.functionAt emptyContext)
               [1%N; 2%N]).
Proof.
  split; [apply perm_swap|].
  exact (enqueue_order_irrelevant Sample.functionAt [1%N; 2%N] [2%N; 1%N]
           emptyContext (perm_swap _ _ _)).
Defined.

Lemma registerDispatch_keeps_registered_witness :
  (m_internalDispatchMap Sample.withCandidates !! Sample.arity11 = None ∨
   m_internalDispatchTargetCandidates Sample.withCandidates !! Sample.arity11
     = None) ∧
  ∃ ctx',
    registerInternalDispatch Sample.functionAt Sample.arity11
      Sample.withCandidates
      = Ok (internalDispatchFunctionName Sample.arity11, ctx') ∧
    (∀ b, registered ctx' b = registered Sample.withCandidates b) ∧
    m_internalDispatchMap ctx' !! Sample.arity11
      = Some (registered Sample.withCandidates Sample.arity11) ∧
    m_internalDispatchTargetCandidates ctx' !! Sample.arity11 = None.
Proof.
  split; [left; reflexivity|].
  exact (registerDispatch_keeps_registered Sample.functionAt Sample.arity11
           Sample.withCandidates (or_introl eq_refl)).
Defined.

Lemma sample_confirmed_populated (b : Arity) (functions : gset N) :
  m_internalDispatchMap Sample.withCandidates !! b = Some functions →
  functions ≠ ∅.
Proof. simpl. by rewrite lookup_empty. Qed.

Lemma sample_registered_nonempty :
  registered Sample.withCandidates Sample.arity11 ≠ ∅.
Proof.
  intros Hempty.
  assert (1%N ∈ registered Sample.withCandidates Sample.arity11) as Hin
    by (vm_compute; reflexivity).
  rewrite Hempty in Hin. by apply elem_of_empty in Hin.
Qed.

Lemma consume_after_registerDispatch_witness :
  (m_internalDispatchMap Sample.withCandidates !! Sample.arity11 = None ∨
   m_internalDispatchTargetCandidates Sample.withCandidates !! Sample.arity11
     = None) ∧
  registered Sample.withCandidates Sample.arity11 ≠ ∅ ∧
  ∃ ctx',
    registerInternalDispatch Sample.functionAt Sample.arity11
      Sample.withCandidates
      = Ok (internalDispatchFunctionName Sample.arity11, ctx') ∧
    consumeInternalDispatchMap ctx'
      = Ok (<[Sample.arity11 := registered Sample.withCandidates Sample.arity11]>
              (m_internalDispatchMap Sample.withCandidates),
            cleared ctx').
Proof.
  split; [left; reflexivity|]. split; [exact sample_registered_nonempty|].
  exact (consume_after_registerDispatch Sample.functionAt Sample.arity11
           Sample.withCandidates (or_introl eq_refl)
           sample_confirmed_populated sample_registered_nonempty).
Defined.

Lemma addLocalVariable_then_lookup_witness :
  addLocalVariable 3 emptyContext
    = Ok ({| iv_declaration := 3 |}, Sample.withLocal) ∧
  localVariable Sample.variableAt 3 Sample.withLocal
    = Ok ({| iv_declaration := 3 |}, Sample.withLocal) ∧
  addLocalVariable 3 Sample.withLocal
    = AssertionFailed "Local variable added multiple times.".
Proof.
  assert (addLocalVariable 3 emptyContext
          = Ok ({| iv_declaration := 3 |}, Sample.withLocal)) as Hadd
    by reflexivity.
  split; [exact Hadd|].
  destruct (addLocalVariable_then_lookup Sample.variableAt 3 emptyContext
              Sample.withLocal {| iv_declaration := 3 |} Hadd)
    as (Hlookup & Hagain & _).
  split; [exact Hlookup|exact Hagain].
Defined.

Lemma addStateVariable_last_write_wins_witness :
  (2%N ≠ 1%N) ∧
  addStateVariable 1 0 0
    (addStateVariable 2 0 20
       {| m_mostDerivedContract := 0; m_stateVariables := ∅;
          m_varCounter := 0 |})
  = addStateVariable 2 0 20
      (addStateVariable 1 0 0
         {| m_mostDerivedContract := 0; m_stateVariables := ∅;
            m_varCounter := 0 |}).
Proof.
  assert (2%N ≠ 1%N) as Hne by discriminate.
  split; [exact Hne|].
  destruct (addStateVariable_last_write_wins 1 2 0 0 0 20
              {| m_mostDerivedContract := 0; m_stateVariables := ∅;
                 m_varCounter := 0 |}) as (_ & _ & _ & _ & Hother).
  exact (proj2 (Hother Hne)).
Defined.
